(** * s3zip: the download / merge / archive / upload pipeline

    A shallow embedding of [s3zip.go].  The goroutines started by [Do]
    ([gen], the download workers, the forwarders and the closer of [merge])
    and the calling goroutine (which runs [archive] and [upload]) are the
    components of one transition system; every channel of the program is
    unbuffered, so a send and the matching receive are a single step.
    A schedule is a list of scheduling choices, and a property of "every
    run" is proved for every schedule. *)

From stdpp Require Import gmap strings list fin_maps pretty.
From Stdlib Require Import ZArith.
From Stdlib.Strings Require Import Byte Ascii.

Local Open Scope string_scope.
Local Open Scope list_scope.

(** ** Data model *)

(** [type Object struct { Bucket, Key string }] *)
Record Object := mkObject { Bucket : string; Key : string }.

(** [type Resource struct { Object Object; FileName string; fpath string }] *)
Record Resource := mkResource {
  res_Object : Object;
  FileName : string;
  fpath : string
}.

(** [type S3Zip struct { concurrency int; ... }]; the uploader and the
    downloader are the storage client of [World] below. *)
Record S3Zip := mkS3Zip { concurrency : Z }.

Definition configOption := S3Zip → S3Zip.

Definition defaultConcurrency : Z := 1.

Definition WithConcurrency (c : Z) : configOption :=
  λ _, {| concurrency := c |}.

Definition New (opts : list configOption) : S3Zip :=
  foldl (λ z opt, opt z) {| concurrency := defaultConcurrency |} opts.

(** Go errors: a cause, or [fmt.Errorf("msg: %w", err)]. *)
Inductive error :=
  | Cause (msg : string)
  | Errorf (msg : string) (err : error).

Definition entry : Type := string * list byte.

(** ** The world outside the package

    The storage client, the zip writer and the operating system can fail;
    what they do is fixed by a [World].  [zip_encode] is the container
    format: the bytes of the archive that holds the given entries. *)

Record World := mkWorld {
  s3_object : Object → option (list byte);
  tmp_exhausted : string → bool;
  zip_create_fails : string → bool;
  zip_copy_fails : string → bool;
  zip_close_fails : bool;
  s3_put_fails : Object → bool;
  zip_encode : list entry → list byte
}.

(** ** Temporary files: [os.CreateTemp], [os.Open], [os.Remove] *)

Definition IsPathSeparator (c : ascii) : bool := Ascii.eqb c "/".

Fixpoint has_separator (s : string) : bool :=
  match s with
  | EmptyString => false
  | String c s' => IsPathSeparator c || has_separator s'
  end.

(** Split at the last ["*"], when there is one. *)
Fixpoint split_last_star (s : string) : option (string * string) :=
  match s with
  | EmptyString => None
  | String c s' =>
      match split_last_star s' with
      | Some (p, q) => Some (String c p, q)
      | None => if Ascii.eqb c "*" then Some (EmptyString, s') else None
      end
  end.

(** [prefixAndSuffix] of package os: [None] is [errPatternHasSeparator]. *)
Definition prefixAndSuffix (pattern : string) : option (string * string) :=
  if has_separator pattern then None
  else Some (default (pattern, EmptyString) (split_last_star pattern)).

Definition TempDir : string := "/tmp".

Definition tmp_name (pre : string) (n : nat) (suf : string) : string :=
  TempDir +:+ "/" +:+ pre +:+ pretty n +:+ suf.

Definition exists_file (fs : gmap string (list byte)) (p : string) : bool :=
  match fs !! p with Some _ => true | None => false end.

(** The random part of the name: [os.CreateTemp] opens with [O_EXCL] and
    tries again while the name is taken.  Among [size fs + 1] candidates
    one is free. *)
Fixpoint nextRandom (fs : gmap string (list byte)) (pre suf : string)
    (tries n : nat) : nat :=
  match tries with
  | 0 => n
  | S k => if exists_file fs (tmp_name pre n suf)
           then nextRandom fs pre suf k (S n) else n
  end.

Definition CreateTemp (w : World) (fs : gmap string (list byte))
    (pattern : string) : gmap string (list byte) * (error + string) :=
  match prefixAndSuffix pattern with
  | None => (fs, inl (Cause "pattern contains path separator"))
  | Some (pre, suf) =>
      if tmp_exhausted w pattern then (fs, inl (Cause "cannot create file"))
      else
        let name := tmp_name pre (nextRandom fs pre suf (size fs) 0) suf in
        (<[name := []]> fs, inr name)
  end.

Definition Remove (fs : gmap string (list byte)) (p : string)
    : gmap string (list byte) :=
  delete p fs.

(** ** The storage client and the per-resource functions of s3zip.go *)

(** [download]: [DownloadWithContext] writes the object into the file. *)
Definition download (w : World) (fs : gmap string (list byte)) (f : string)
    (obj : Object) : gmap string (list byte) * option error :=
  match s3_object w obj with
  | Some body => (<[f := body]> fs, None)
  | None => (fs, Some (Cause "GetObject failed"))
  end.

Definition set_fpath (res : Resource) (p : string) : Resource :=
  {| res_Object := res_Object res; FileName := FileName res; fpath := p |}.

Definition downloadOnDisk (w : World) (fs : gmap string (list byte))
    (res : Resource) : gmap string (list byte) * Resource * option error :=
  match CreateTemp w fs ("*." +:+ FileName res) with
  | (fs1, inl err) => (fs1, res, Some err)
  | (fs1, inr f) =>
      match download w fs1 f (res_Object res) with
      | (fs2, Some err) => (fs2, res, Some (Errorf "failed to download" err))
      | (fs2, None) => (fs2, set_fpath res f, None)
      end
  end.

(** [upload]: the bucket records what [UploadWithContext] has stored. *)
Definition upload (w : World) (fs : gmap string (list byte))
    (bucket : list (Object * list byte)) (destObj : Object) (path : string)
    : list (Object * list byte) * option error :=
  match fs !! path with
  | None => (bucket, Some (Errorf "failed to open a file" (Cause "no such file")))
  | Some body =>
      if s3_put_fails w destObj then (bucket, Some (Cause "PutObject failed"))
      else (bucket ++ [(destObj, body)], None)
  end.

(** [addToZip]: [zw.Create] opens the entry, [io.Copy] fills it. *)
Definition addToZip (w : World) (fs : gmap string (list byte))
    (zw : list entry) (res : Resource) : list entry * option error :=
  if zip_create_fails w (FileName res) then
    (zw, Some (Errorf "failed to add a file to the zip file" (Cause "zip: Create")))
  else
    match fs !! fpath res with
    | None =>
        (zw ++ [(FileName res, [])],
         Some (Errorf "failed to open a downloaded file" (Cause "no such file")))
    | Some body =>
        if zip_copy_fails w (FileName res) then
          (zw ++ [(FileName res, [])],
           Some (Errorf "failed to compress a file" (Cause "io.Copy")))
        else (zw ++ [(FileName res, body)], None)
    end.

(** ** Goroutines *)

(** A download worker ([runDownloadWorker]): blocked in [range queue],
    inside [downloadOnDisk], blocked in [out <- res], or returned (its
    [out] is closed by the deferred [close]). *)
Inductive WState :=
  | WRecv
  | WDownload (res : Resource)
  | WSend (res : Resource)
  | WDone.

(** A forwarder of [merge]: blocked in [range c], blocked in [out <- r],
    or past [wg.Done()]. *)
Inductive FState :=
  | FRecv
  | FSend (r : Resource)
  | FDone.

(** Worker [i] and the forwarder that reads its channel. *)
Record Lane := mkLane { wk : WState; fw : FState }.

(** The goroutine that called [Do]. *)
Inductive MState :=
  | MArchive
  | MRange (zf : string) (zw : list entry) (defers : list string)
  | MUpload (zipFpath : string)
  | MReturn (err : option error).

(** [queue]/[queue_closed] are the goroutine of [gen]: the resources it
    still has to send and whether it has closed [ch].  [merged_closed] is
    the closer goroutine of [merge].  [qlog], [wlog] and [mlog] are history
    variables (no step reads them): what has been received from the task
    queue, what the workers have sent, what [archive] has received. *)
Record State := mkState {
  destObj : Object;
  queue : list Resource;
  queue_closed : bool;
  lanes : list Lane;
  merged_closed : bool;
  main : MState;
  disk : gmap string (list byte);
  bucket : list (Object * list byte);
  qlog : list Resource;
  wlog : list Resource;
  mlog : list Resource
}.

Definition with_lane (s : State) (i : nat) (ln : Lane) : State :=
  mkState (destObj s) (queue s) (queue_closed s) (<[i := ln]> (lanes s))
    (merged_closed s) (main s) (disk s) (bucket s) (qlog s) (wlog s) (mlog s).

Definition with_main (s : State) (m : MState) : State :=
  mkState (destObj s) (queue s) (queue_closed s) (lanes s)
    (merged_closed s) m (disk s) (bucket s) (qlog s) (wlog s) (mlog s).

Definition with_disk (s : State) (fs : gmap string (list byte)) : State :=
  mkState (destObj s) (queue s) (queue_closed s) (lanes s)
    (merged_closed s) (main s) fs (bucket s) (qlog s) (wlog s) (mlog s).

(** *** [gen] *)

(** [ch <- res], taken by worker [i] in its [range queue]. *)
Definition gen_send (i : nat) (s : State) : option State :=
  match queue s, lanes s !! i with
  | res :: rest, Some (mkLane WRecv f) =>
      Some (mkState (destObj s) rest (queue_closed s)
              (<[i := mkLane (WDownload res) f]> (lanes s))
              (merged_closed s) (main s) (disk s) (bucket s)
              (qlog s ++ [res]) (wlog s) (mlog s))
  | _, _ => None
  end.

(** The deferred [close(ch)] once the loop over [resources] is over. *)
Definition gen_close (s : State) : option State :=
  match queue s, queue_closed s with
  | [], false =>
      Some (mkState (destObj s) [] true (lanes s) (merged_closed s) (main s)
              (disk s) (bucket s) (qlog s) (wlog s) (mlog s))
  | _, _ => None
  end.

(** *** [runDownloadWorker] *)

(** [range queue] ends: the worker returns and closes [out]. *)
Definition worker_exit (i : nat) (s : State) : option State :=
  match queue_closed s, lanes s !! i with
  | true, Some (mkLane WRecv f) => Some (with_lane s i (mkLane WDone f))
  | _, _ => None
  end.

(** [res, err := z.downloadOnDisk(ctx, res); if err != nil { return }] *)
Definition worker_download (w : World) (i : nat) (s : State) : option State :=
  match lanes s !! i with
  | Some (mkLane (WDownload res) f) =>
      match downloadOnDisk w (disk s) res with
      | (fs, _, Some _) => Some (with_disk (with_lane s i (mkLane WDone f)) fs)
      | (fs, res', None) =>
          Some (with_disk (with_lane s i (mkLane (WSend res') f)) fs)
      end
  | _ => None
  end.

(** [out <- res], taken by forwarder [i] of [merge] in its [range c]. *)
Definition worker_send (i : nat) (s : State) : option State :=
  match lanes s !! i with
  | Some (mkLane (WSend res) FRecv) =>
      Some (mkState (destObj s) (queue s) (queue_closed s)
              (<[i := mkLane WRecv (FSend res)]> (lanes s))
              (merged_closed s) (main s) (disk s) (bucket s)
              (qlog s) (wlog s ++ [res]) (mlog s))
  | _ => None
  end.

(** *** [merge] *)

(** [range c] ends because worker [i] has closed [c]: [wg.Done()]. *)
Definition forwarder_done (i : nat) (s : State) : option State :=
  match lanes s !! i with
  | Some (mkLane WDone FRecv) => Some (with_lane s i (mkLane WDone FDone))
  | _ => None
  end.

Definition forwarder_finished (ln : Lane) : bool :=
  match fw ln with FDone => true | _ => false end.

(** [wg.Wait(); close(out)] *)
Definition merge_close (s : State) : option State :=
  if forallb forwarder_finished (lanes s) && negb (merged_closed s) then
    Some (mkState (destObj s) (queue s) (queue_closed s) (lanes s) true
            (main s) (disk s) (bucket s) (qlog s) (wlog s) (mlog s))
  else None.

(** *** [archive] *)

(** The deferred [os.Remove] calls of [archive], last registered first. *)
Definition run_defers (fs : gmap string (list byte)) (defers : list string)
    : gmap string (list byte) :=
  foldl Remove fs defers.

(** [Do] gets an error from [archive] and returns it wrapped. *)
Definition failed_to_zip (err : error) : MState :=
  MReturn (Some (Errorf "failed to zip" err)).

(** [zf, err := os.CreateTemp("", "*.s3.zip")] and [zip.NewWriter(zf)]. *)
Definition archive_open (w : World) (s : State) : State :=
  match CreateTemp w (disk s) "*.s3.zip" with
  | (fs, inl err) =>
      with_disk (with_main s
        (failed_to_zip (Errorf "failed to create a temp zip file" err))) fs
  | (fs, inr zf) => with_disk (with_main s (MRange zf [] [])) fs
  end.

(** One turn of [for res := range queue] on the resource [res]. *)
Definition archive_iter (w : World) (fs : gmap string (list byte))
    (zf : string) (zw : list entry) (defers : list string) (res : Resource)
    : gmap string (list byte) * MState :=
  if String.eqb (fpath res) "" then (fs, MRange zf zw defers)
  else
    let defers' := fpath res :: defers in
    match addToZip w fs zw res with
    | (_, Some err) => (run_defers fs defers', failed_to_zip err)
    | (zw', None) => (fs, MRange zf zw' defers')
    end.

(** [out <- r] of forwarder [i], taken by [range queue] of [archive]. *)
Definition archive_recv (w : World) (i : nat) (s : State) : option State :=
  match main s, lanes s !! i with
  | MRange zf zw defers, Some (mkLane k (FSend r)) =>
      let '(fs, m) := archive_iter w (disk s) zf zw defers r in
      Some (mkState (destObj s) (queue s) (queue_closed s)
              (<[i := mkLane k FRecv]> (lanes s))
              (merged_closed s) m fs (bucket s)
              (qlog s) (wlog s) (mlog s ++ [r]))
  | _, _ => None
  end.

(** After the loop: [zw.Close()], the deferred removals, and the return
    to [Do], which then has [zipFpath] or an error. *)
Definition archive_close (w : World) (fs : gmap string (list byte))
    (zf : string) (zw : list entry) (defers : list string)
    : gmap string (list byte) * MState :=
  if zip_close_fails w then
    (run_defers fs defers,
     failed_to_zip (Errorf "failed to close zip file" (Cause "zip: Close")))
  else (run_defers (<[zf := zip_encode w zw]> fs) defers, MUpload zf).

(** *** The calling goroutine: [Do] after the workers are started *)

(** [defer os.Remove(zipFpath)], [z.upload], and the return. *)
Definition Do_upload (w : World) (s : State) (zipFpath : string) : State :=
  let '(b, err) := upload w (disk s) (bucket s) (destObj s) zipFpath in
  mkState (destObj s) (queue s) (queue_closed s) (lanes s) (merged_closed s)
    (MReturn (match err with
              | Some e => Some (Errorf "failed to upload zip" e)
              | None => None
              end))
    (Remove (disk s) zipFpath) b (qlog s) (wlog s) (mlog s).

(** A step of the calling goroutine that needs no partner. *)
Definition main_step (w : World) (s : State) : option State :=
  match main s with
  | MArchive => Some (archive_open w s)
  | MRange zf zw defers =>
      if merged_closed s then
        let '(fs, m) := archive_close w (disk s) zf zw defers in
        Some (with_disk (with_main s m) fs)
      else None
  | MUpload zipFpath => Some (Do_upload w s zipFpath)
  | MReturn _ => None
  end.

(** ** The transition system *)

Inductive label :=
  | GenSend (i : nat)
  | GenClose
  | WorkerExit (i : nat)
  | Download (i : nat)
  | WorkerSend (i : nat)
  | ForwarderDone (i : nat)
  | MergeClose
  | ArchiveRecv (i : nat)
  | Main.

Definition step (w : World) (l : label) (s : State) : option State :=
  match l with
  | GenSend i => gen_send i s
  | GenClose => gen_close s
  | WorkerExit i => worker_exit i s
  | Download i => worker_download w i s
  | WorkerSend i => worker_send i s
  | ForwarderDone i => forwarder_done i s
  | MergeClose => merge_close s
  | ArchiveRecv i => archive_recv w i s
  | Main => main_step w s
  end.

(** A schedule names the goroutine to run next; a choice that cannot move
    is skipped. *)
Definition sched_step (w : World) (s : State) (l : label) : State :=
  default s (step w l s).

Definition run (w : World) (sched : list label) (s : State) : State :=
  foldl (sched_step w) s sched.

(** [Do] up to the call of [archive]: [gen], then
    [make([]<-chan Resource, z.concurrency)], which panics on a negative
    length, then one worker per slot, then [merge].  [None] is the panic. *)
Definition Do_start (z : S3Zip) (dst : Object) (resources : list Resource)
    : option State :=
  if (concurrency z <? 0)%Z then None
  else
    Some (mkState dst resources false
            (replicate (Z.to_nat (concurrency z)) (mkLane WRecv FRecv))
            false MArchive ∅ [] [] [] []).

(** [Do] under a schedule: the state reached, or [None] for the panic. *)
Definition Do (w : World) (z : S3Zip) (dst : Object)
    (resources : list Resource) (sched : list label) : option State :=
  run w sched <$> Do_start z dst resources.

(** Nothing can move any more. *)
Definition quiescent (w : World) (s : State) : Prop :=
  ∀ l, step w l s = None.

Definition returned (s : State) : option (option error) :=
  match main s with MReturn err => Some err | _ => None end.

(** ** Invariants *)

Definition wk_items (k : WState) : list Resource :=
  match k with WDownload r | WSend r => [r] | _ => [] end.

Definition fw_items (f : FState) : list Resource :=
  match f with FSend r => [r] | _ => [] end.

Definition lane_items (ln : Lane) : list Resource :=
  wk_items (wk ln) ++ fw_items (fw ln).

(** What the forwarders of [merge] hold: received from a worker, not yet
    taken from [out]. *)
Definition held (s : State) : list Resource :=
  concat ((λ ln, fw_items (fw ln)) <$> lanes s).

Definition lane_finished (ln : Lane) : Prop :=
  wk ln = WDone ∧ fw ln = FDone.

(** Every goroutine started by [Do] has run to its end. *)
Definition all_finished (s : State) : Prop :=
  queue_closed s = true ∧ Forall lane_finished (lanes s) ∧
  merged_closed s = true.

(** *** The channels: nothing is lost, nothing is made up *)

Record chan_inv (resources : list Resource) (s : State) : Prop := {
  ci_queue : qlog s ++ queue s = resources;
  ci_closed : queue_closed s = true → queue s = [];
  ci_merge : wlog s ≡ₚ mlog s ++ held s;
  ci_fwd : Forall (λ ln, fw ln = FDone → wk ln = WDone) (lanes s);
  ci_merged : merged_closed s = true → Forall (λ ln, fw ln = FDone) (lanes s)
}.

(** Whether [downloadOnDisk] will succeed on the resource. *)
Definition download_ok (w : World) (res : Resource) : bool :=
  negb (has_separator (FileName res)) &&
  negb (tmp_exhausted w ("*." +:+ FileName res)) &&
  bool_decide (is_Some (s3_object w (res_Object res))).

(** *** Accounting: where every descriptor is *)

(** What [Do] is given for a resource: the source object and the name in
    the archive. *)
Definition desc (r : Resource) : Object * string := (res_Object r, FileName r).

Definition flight_descs (lanes : list Lane) : list (Object * string) :=
  concat ((λ ln, desc <$> lane_items ln) <$> lanes).

(** Every descriptor is in the queue, with a worker or a forwarder, in the
    archive loop's past, or lost by a worker whose download failed. *)
Record acc_inv (w : World) (rs : list Resource) (s : State)
    (lost : list Resource) : Prop := {
  ai_perm : desc <$> rs ≡ₚ
    (desc <$> mlog s) ++ flight_descs (lanes s) ++ (desc <$> queue s) ++
    (desc <$> lost);
  ai_lost : Forall (λ r, download_ok w r = false) lost;
  ai_done : Forall (λ ln, wk ln = WDone → queue_closed s = true ∨ lost ≠ [])
              (lanes s)
}.

(** *** Staged files *)

(** The resources a lane holds that have been downloaded. *)
Definition staged_items (ln : Lane) : list Resource :=
  match wk ln with WSend r => [r] | _ => [] end ++ fw_items (fw ln).

(** The transient file of a staged resource holds the source object. *)
Definition staged (w : World) (fs : gmap string (list byte)) (r : Resource)
    : Prop :=
  ∃ body, s3_object w (res_Object r) = Some body ∧ fs !! fpath r = Some body.

Definition lanes_staged (w : World) (fs : gmap string (list byte))
    (Q : string → Prop) (lanes : list Lane) : Prop :=
  Forall (λ ln, Forall (λ r, staged w fs r ∧ Q (fpath r)) (staged_items ln))
    lanes.

(** Every staged resource carries the name of its transient file. *)
Definition path_inv (s : State) : Prop :=
  Forall (λ ln, Forall (λ r, fpath r ≠ "") (staged_items ln)) (lanes s).

(** The workers and the forwarders have returned and [out] is closed. *)
Definition lanes_finished (s : State) : Prop :=
  Forall lane_finished (lanes s) ∧ merged_closed s = true.

(** *** The calling goroutine *)

(** The bytes of the source object ([[]] when there is none). *)
Definition src_bytes (w : World) (r : Resource) : list byte :=
  default [] (s3_object w (res_Object r)).

(** The archive entry a resource should become. *)
Definition entry_of (w : World) (r : Resource) : entry :=
  (FileName r, src_bytes w r).

(** The archive cannot be written: no file for it, or some entry fails. *)
Definition archive_fails (w : World) (rs : list Resource) : Prop :=
  tmp_exhausted w "*.s3.zip" = true ∨
  ∃ r, r ∈ rs ∧ (zip_create_fails w (FileName r) = true ∨
                 zip_copy_fails w (FileName r) = true).

Definition main_inv (w : World) (rs : list Resource) (s : State) : Prop :=
  match main s with
  | MArchive =>
      mlog s = [] ∧ bucket s = [] ∧
      lanes_staged w (disk s) (λ _, True) (lanes s)
  | MRange zf zw defers =>
      zw = entry_of w <$> mlog s ∧ is_Some (disk s !! zf) ∧ (zf ∉ defers) ∧
      bucket s = [] ∧ lanes_staged w (disk s) (λ p, p ≠ zf) (lanes s)
  | MUpload zf =>
      lanes_finished s ∧
      disk s !! zf = Some (zip_encode w (entry_of w <$> mlog s)) ∧
      bucket s = [] ∧ zip_close_fails w = false
  | MReturn err =>
      (is_Some err ∧ bucket s = [] ∧ archive_fails w rs) ∨
      (lanes_finished s ∧
       ((is_Some err ∧ bucket s = [] ∧
         (zip_close_fails w = true ∨ s3_put_fails w (destObj s) = true)) ∨
        (err = None ∧
         bucket s = [(destObj s, zip_encode w (entry_of w <$> mlog s))])))
  end.

(** *** All invariants together *)

Record pipe_inv (w : World) (dst : Object) (rs : list Resource) (s : State)
    : Prop := {
  pi_dest : destObj s = dst;
  pi_chan : chan_inv rs s;
  pi_acc : ∃ lost, acc_inv w rs s lost;
  pi_path : path_inv s;
  pi_main : main_inv w rs s
}.

(** ** A bound on the steps of a run *)

Definition wk_measure (k : WState) : nat :=
  match k with WRecv => 1 | WDownload _ => 4 | WSend _ => 3 | WDone => 0 end.

Definition fw_measure (f : FState) : nat :=
  match f with FRecv => 1 | FSend _ => 2 | FDone => 0 end.

Definition lane_measure (ln : Lane) : nat :=
  wk_measure (wk ln) + fw_measure (fw ln).

Definition main_measure (m : MState) : nat :=
  match m with
  | MArchive => 3 | MRange _ _ _ => 2 | MUpload _ => 1 | MReturn _ => 0
  end.

(** An upper bound on the number of steps still to come. *)
Definition measure (s : State) : nat :=
  4 * length (queue s) + (if queue_closed s then 0 else 1) +
  sum_list (lane_measure <$> lanes s) +
  (if merged_closed s then 0 else 1) + main_measure (main s).

(** The scheduling choices of a schedule that did move. *)
Fixpoint effective_steps (w : World) (sched : list label) (s : State) : nat :=
  match sched with
  | [] => 0
  | l :: sched =>
      match step w l s with
      | Some s' => S (effective_steps w sched s')
      | None => effective_steps w sched s
      end
  end.

(** ** What a run of [Do] can rely on *)

(** Every download of the run will succeed. *)
Definition downloads_ok (w : World) (rs : list Resource) : bool :=
  forallb (download_ok w) rs.

(** [addToZip] will not fail on the resource once it is downloaded. *)
Definition zip_ok (w : World) (r : Resource) : bool :=
  negb (zip_create_fails w (FileName r)) &&
  negb (zip_copy_fails w (FileName r)).

(** The archive's own file can be created and every entry can be written. *)
Definition entries_ok (w : World) (rs : list Resource) : bool :=
  negb (tmp_exhausted w "*.s3.zip") && forallb (zip_ok w) rs.

(** The zip writer can be closed and the archive can be uploaded. *)
Definition upload_ok (w : World) (dst : Object) : bool :=
  negb (zip_close_fails w) && negb (s3_put_fails w dst).

(** *** A run that returns nil has met no failure *)

Definition zipped_inv (w : World) (s : State) : Prop :=
  match main s with
  | MArchive => mlog s = []
  | MRange _ _ _ =>
      tmp_exhausted w "*.s3.zip" = false ∧
      Forall (λ r, zip_ok w r = true) (mlog s)
  | MUpload _ =>
      tmp_exhausted w "*.s3.zip" = false ∧
      Forall (λ r, zip_ok w r = true) (mlog s) ∧ zip_close_fails w = false
  | MReturn None =>
      tmp_exhausted w "*.s3.zip" = false ∧
      Forall (λ r, zip_ok w r = true) (mlog s) ∧
      upload_ok w (destObj s) = true
  | MReturn (Some _) => True
  end.

(** *** No workers *)

Definition zero_inv (w : World) (dst : Object) (rs : list Resource)
    (s : State) : Prop :=
  lanes s = [] ∧ queue s = rs ∧ destObj s = dst ∧
  match main s with
  | MArchive => bucket s = []
  | MRange zf zw defers =>
      zw = [] ∧ defers = [] ∧ is_Some (disk s !! zf) ∧ bucket s = []
  | MUpload zf => disk s !! zf = Some (zip_encode w []) ∧ bucket s = []
  | MReturn err => err = None ∧ bucket s = [(dst, zip_encode w [])]
  end.

(** ** The transient files of a run *)

(** The names of the transient files the lanes hold. *)
Definition staged_paths (lanes : list Lane) : list string :=
  concat ((λ ln, fpath <$> staged_items ln) <$> lanes).

(** The files the calling goroutine still has to remove: the file of the
    archive and the removals [archive] has deferred. *)
Definition main_paths (m : MState) : list string :=
  match m with
  | MArchive | MReturn _ => []
  | MRange zf _ defers => zf :: defers
  | MUpload zf => [zf]
  end.

Definition tracked (s : State) : list string :=
  staged_paths (lanes s) ++ main_paths (main s).

(** Every file that is still to be read or removed exists, and no two
    uses share a file. *)
Definition files_inv (s : State) : Prop :=
  NoDup (tracked s) ∧ Forall (λ p, is_Some (disk s !! p)) (tracked s).

(** Nothing else is on the disk. *)
Definition clean_inv (s : State) : Prop :=
  dom (disk s) = list_to_set (tracked s).

(** While [archive] is in its loop: the removals it has deferred, and the
    files they will remove. *)
Definition defer_inv (w : World) (s : State) : Prop :=
  ∀ zf zw defers, main s = MRange zf zw defers →
    defers = reverse (fpath <$> mlog s) ∧ Forall (staged w (disk s)) (mlog s).

(** What was downloaded was downloaded from an object that exists. *)
Definition fetched_inv (w : World) (s : State) : Prop :=
  Forall (λ r, download_ok w r = true) (mlog s) ∧
  Forall (λ ln, Forall (λ r, download_ok w r = true) (staged_items ln))
    (lanes s).

(** ** Downloads in progress *)

(** The resources the workers hold: taken from the task queue and not yet
    handed to [merge]. *)
Definition busy (s : State) : list Resource :=
  concat ((λ ln, wk_items (wk ln)) <$> lanes s).

(** ** The errors of [Do] *)

(** The error [Do] returns names a stage, and that stage has failed. *)
Definition Do_error (w : World) (dst : Object) (rs : list Resource)
    (e : error) : Prop :=
  (∃ cause, e = Errorf "failed to zip"
                  (Errorf "failed to create a temp zip file" cause) ∧
            tmp_exhausted w "*.s3.zip" = true) ∨
  (∃ cause r, e = Errorf "failed to zip"
                    (Errorf "failed to add a file to the zip file" cause) ∧
              r ∈ rs ∧ zip_create_fails w (FileName r) = true) ∨
  (∃ cause r, e = Errorf "failed to zip"
                    (Errorf "failed to compress a file" cause) ∧
              r ∈ rs ∧ zip_copy_fails w (FileName r) = true) ∨
  (∃ cause, e = Errorf "failed to zip"
                  (Errorf "failed to close zip file" cause) ∧
            zip_close_fails w = true) ∨
  (∃ msg, e = Errorf "failed to upload zip" (Cause msg) ∧
          s3_put_fails w dst = true).

Definition err_inv (w : World) (dst : Object) (rs : list Resource)
    (s : State) : Prop :=
  ∀ e, main s = MReturn (Some e) → Do_error w dst rs e.

(** ** One worker *)

(** What the one lane holds, oldest first. *)
Definition pending (ln : Lane) : list Resource :=
  fw_items (fw ln) ++ wk_items (wk ln).

(** With one worker the resources go through in the order of the queue,
    up to the first download that fails. *)
Definition order_inv (w : World) (s : State) : Prop :=
  ∃ ln lost,
    lanes s = [ln] ∧
    desc <$> qlog s = (desc <$> mlog s ++ pending ln) ++ (desc <$> lost) ∧
    (lost = [] ∨ ∃ r, lost = [r] ∧ download_ok w r = false ∧ wk ln = WDone) ∧
    (wk ln = WDone → lost = [] → queue_closed s = true).

(** ** A small store, and runs on it *)

Definition Object_eqb (a b : Object) : bool :=
  String.eqb (Bucket a) (Bucket b) && String.eqb (Key a) (Key b).

Fixpoint GetObject (objs : list (Object * list byte)) (o : Object)
    : option (list byte) :=
  match objs with
  | [] => None
  | (o', body) :: rest =>
      if Object_eqb o' o then Some body else GetObject rest o
  end.

(** A container format for the examples: names and contents in a row. *)
Definition plain_zip (es : list entry) : list byte :=
  List.concat ((λ e : entry, String.list_byte_of_string e.1 ++ e.2) <$> es).

Definition demo_store : list (Object * list byte) :=
  [(mkObject "bucket1" "a.txt", String.list_byte_of_string "alpha");
   (mkObject "bucket1" "b.txt", String.list_byte_of_string "beta")].

(** Nothing fails but the download of an object that is not in the store. *)
Definition demo_world : World :=
  mkWorld (GetObject demo_store) (λ _, false) (λ _, false) (λ _, false)
    false (λ _, false) plain_zip.

(** As [demo_world], but the zip writer fails on the entry ["b.txt"]. *)
Definition copy_fails_world : World :=
  mkWorld (GetObject demo_store) (λ _, false) (λ _, false)
    (λ name, String.eqb name "b.txt") false (λ _, false) plain_zip.

Definition dest : Object := mkObject "bucket2" "out.zip".

Definition resA : Resource := mkResource (mkObject "bucket1" "a.txt") "a.txt" "".

Definition resB : Resource := mkResource (mkObject "bucket1" "b.txt") "b.txt" "".

Definition resMissing : Resource :=
  mkResource (mkObject "bucket1" "missing.txt") "m.txt" "".

(** The second resource of the README: an archive path with a slash. *)
Definition resNested : Resource :=
  mkResource (mkObject "bucket1" "b.txt") "bar/baz.txt" "".

(** Two workers, both resources downloaded and archived. *)
Definition sched_two_workers : list label :=
  [GenSend 0; GenSend 1; Download 1; Main; Download 0; WorkerSend 1;
   ArchiveRecv 1; GenClose; WorkerSend 0; WorkerExit 1; ArchiveRecv 0;
   WorkerExit 0; ForwarderDone 0; ForwarderDone 1; MergeClose; Main; Main].

(** One worker, the resources one after the other. *)
Definition sched_one_worker : list label :=
  [GenSend 0; Download 0; Main; WorkerSend 0; ArchiveRecv 0; GenSend 0;
   Download 0; WorkerSend 0; GenClose; ArchiveRecv 0; WorkerExit 0;
   ForwarderDone 0; MergeClose; Main; Main].

(** Two workers, three resources; worker 1 gets the second one. *)
Definition sched_one_download_fails : list label :=
  [GenSend 0; GenSend 1; Download 1; Download 0; Main; WorkerSend 0;
   ArchiveRecv 0; GenSend 0; Download 0; WorkerSend 0; ArchiveRecv 0;
   GenClose; WorkerExit 0; ForwarderDone 0; ForwarderDone 1; MergeClose;
   Main; Main].

(** One worker whose first download fails. *)
Definition sched_worker_gives_up : list label :=
  [GenSend 0; Download 0; ForwarderDone 0; MergeClose; Main; Main; Main].

(** No worker takes part. *)
Definition sched_main_only : list label := [Main; MergeClose; Main; Main].

(** [archive] in the middle of its loop, with a forwarder that holds a
    resource without transient file name. *)
Definition unstaged_state : State :=
  mkState dest [] true [mkLane WDone (FSend resA)] false
    (MRange "/tmp/0.s3.zip" [] []) {["/tmp/0.s3.zip" := []]} [] [] [] [].

Definition sched_drain : list label :=
  [ArchiveRecv 0; ForwarderDone 0; MergeClose; Main; Main].

(** One worker and no resource. *)
Definition sched_no_resources : list label :=
  [Main; GenClose; WorkerExit 0; ForwarderDone 0; MergeClose; Main; Main].

(** Two workers; [archive] has received one resource and is in its loop. *)
Definition sched_in_loop : list label :=
  [GenSend 0; GenSend 1; Download 1; Main; Download 0; WorkerSend 1;
   ArchiveRecv 1].

(** * Invariants and theorems *)

(** ** Lists, schedules *)

Lemma concat_fmap_insert {A B} (f : A → list B) (l : list A) i x y :
  l !! i = Some x →
  concat (f <$> <[i := y]> l) ++ f x ≡ₚ concat (f <$> l) ++ f y.
Proof.
  revert i. induction l as [|a l IH]; intros [|i] Hi; simplify_eq/=.
  - solve_Permutation.
  - rewrite <-!(assoc_L (++)). f_equiv. by apply IH.
Qed.

Lemma run_cons w l sched s :
  run w (l :: sched) s = run w sched (sched_step w s l).
Proof. done. Qed.

(** An invariant of the steps is an invariant of every schedule. *)
Lemma run_invariant w (P : State → Prop) :
  (∀ l s s', P s → step w l s = Some s' → P s') →
  ∀ sched s, P s → P (run w sched s).
Proof.
  intros Hstep sched. induction sched as [|l sched IH]; intros s Hs; [done|].
  rewrite run_cons. apply IH. unfold sched_step.
  destruct (step w l s) as [s'|] eqn:E; simpl; eauto.
Qed.

Ltac unfold_step :=
  unfold step, gen_send, gen_close, worker_exit, worker_download,
    worker_send, forwarder_done, merge_close, archive_recv, main_step,
    archive_open, Do_upload, with_lane, with_main, with_disk in *.

(** Case analysis on the step taken. *)
Ltac step_cases H :=
  match type of H with
  | step _ ?l _ = Some _ =>
      destruct l; unfold_step; repeat case_match; simplify_eq; simpl in *
  end.

(** *** The channels: nothing is lost, nothing is made up *)

Lemma held_insert (lanes : list Lane) i ln ln' :
  lanes !! i = Some ln →
  concat ((λ ln, fw_items (fw ln)) <$> <[i := ln']> lanes) ++ fw_items (fw ln)
  ≡ₚ concat ((λ ln, fw_items (fw ln)) <$> lanes) ++ fw_items (fw ln').
Proof. apply (concat_fmap_insert (λ ln, fw_items (fw ln))). Qed.

Lemma held_same (lanes : list Lane) i ln ln' :
  lanes !! i = Some ln → fw ln' = fw ln →
  concat ((λ ln, fw_items (fw ln)) <$> <[i := ln']> lanes)
  = concat ((λ ln, fw_items (fw ln)) <$> lanes).
Proof.
  intros Hi Hfw. rewrite list_fmap_insert, Hfw.
  by rewrite list_insert_id; [|rewrite list_lookup_fmap, Hi].
Qed.

Lemma forallb_finished (lanes : list Lane) :
  forallb forwarder_finished lanes = true →
  Forall (λ ln, fw ln = FDone) lanes.
Proof.
  rewrite forallb_forall, Forall_forall. intros H ln Hln.
  apply list_elem_of_In, H in Hln. unfold forwarder_finished in Hln.
  by destruct (fw ln).
Qed.

Lemma chan_inv_step w rs l s s' :
  chan_inv rs s → step w l s = Some s' → chan_inv rs s'.
Proof.
  intros [Hq Hc Hm Hf Hd] Hstep.
  step_cases Hstep; constructor; unfold held in *; simpl; try done;
    repeat match goal with
    | H : lanes _ !! _ = Some _ |- _ =>
        pose proof (Forall_lookup_1 _ _ _ _ Hf H);
        pose proof (λ Hmc, Forall_lookup_1 _ _ _ _ (Hd Hmc) H);
        pose proof (λ ln', held_insert _ _ _ ln' H) as Hins;
        pose proof (λ ln', held_same _ _ _ ln' H) as Hsame;
        apply list_elem_of_lookup_2 in H
    end; simpl in *.
  all: try (by rewrite <-(assoc_L (++))).
  all: try (intros Hmc; apply Forall_insert; naive_solver).
  all: try (apply Forall_insert; naive_solver).
  all: try (by rewrite Hsame).
  all: try (by intros ?%Hc).
  all: try (by intros _; apply forallb_finished; destruct (forallb _ _)).
  - specialize (Hins {| wk := WRecv; fw := FSend res |}). simpl in Hins.
    rewrite (right_id_L [] (++)) in Hins. by rewrite Hins, Hm, (assoc_L (++)).
  - specialize (Hins {| wk := WDone; fw := FDone |}). simpl in Hins.
    rewrite !(right_id_L [] (++)) in Hins. by rewrite Hins.
  - specialize (Hins {| wk := wk0; fw := FRecv |}). simpl in Hins.
    rewrite (right_id_L [] (++)) in Hins.
    rewrite Hm, <-Hins. solve_Permutation.
Qed.

Lemma chan_inv_start z dst rs s :
  Do_start z dst rs = Some s → chan_inv rs s.
Proof.
  unfold Do_start. case_match; intros; simplify_eq.
  constructor; unfold held; simpl; try done.
  - induction (Z.to_nat _); simpl; auto.
  - apply Forall_replicate; done.
Qed.

Lemma chan_inv_Do w z dst rs sched s :
  Do w z dst rs sched = Some s → chan_inv rs s.
Proof.
  unfold Do. destruct (Do_start z dst rs) as [s0|] eqn:E; intros; simplify_eq/=.
  apply run_invariant; eauto using chan_inv_step, chan_inv_start.
Qed.

(** *** Temporary files are fresh *)

Lemma string_app_length (s t : string) :
  String.length (s +:+ t) = String.length s + String.length t.
Proof. induction s; simpl; auto. Qed.

Lemma string_app_inv_r (s1 s2 t : string) : s1 +:+ t = s2 +:+ t → s1 = s2.
Proof.
  revert s2. induction s1 as [|a s1 IH]; intros [|b s2] H.
  - done.
  - apply (f_equal String.length) in H.
    rewrite !string_app_length in H. simpl in H. lia.
  - apply (f_equal String.length) in H.
    rewrite !string_app_length in H. simpl in H. lia.
  - injection H as -> H. f_equal. by apply IH.
Qed.

Lemma tmp_name_inj pre suf n m :
  tmp_name pre n suf = tmp_name pre m suf → n = m.
Proof.
  unfold tmp_name. intros H.
  do 3 apply (inj (String.app _)) in H.
  apply string_app_inv_r in H. by apply (inj pretty).
Qed.

Lemma tmp_name_nonempty pre n suf : tmp_name pre n suf ≠ "".
Proof. done. Qed.

Lemma exists_file_spec (fs : gmap string (list byte)) p :
  exists_file fs p = false ↔ fs !! p = None.
Proof. unfold exists_file. destruct (fs !! p); naive_solver. Qed.

(** [nextRandom] stops at a free name, or has seen only taken ones. *)
Lemma nextRandom_spec fs pre suf tries n :
  let m := nextRandom fs pre suf tries n in
  fs !! tmp_name pre m suf = None ∨
  (m = n + tries ∧
   ∀ j, n ≤ j < n + tries → is_Some (fs !! tmp_name pre j suf)).
Proof.
  revert n. induction tries as [|k IH]; intros n; simpl.
  - right. split; [lia|]. intros j ?. lia.
  - destruct (exists_file fs (tmp_name pre n suf)) eqn:E.
    + destruct (IH (S n)) as [?|[Hm Hall]]; [by left|right].
      split; [lia|]. intros j Hj.
      destruct (decide (j = n)) as [->|].
      * unfold exists_file in E.
        destruct (fs !! tmp_name pre n suf); [eauto|done].
      * apply Hall. lia.
    + left. by apply exists_file_spec.
Qed.

Lemma nextRandom_free (fs : gmap string (list byte)) pre suf :
  fs !! tmp_name pre (nextRandom fs pre suf (size fs) 0) suf = None.
Proof.
  destruct (nextRandom_spec fs pre suf (size fs) 0) as [?|[Hm Hall]]; [done|].
  simpl in *. destruct (fs !! tmp_name pre _ suf) as [v|] eqn:E; [|done].
  exfalso. rewrite Hm in E.
  set (cands := (λ j, tmp_name pre j suf) <$> seq 0 (S (size fs))).
  assert (cands ⊆+ (map_to_list fs).*1) as Hsub.
  { apply NoDup_submseteq.
    - apply NoDup_fmap_2_strong; [|apply NoDup_seq].
      intros ???? . apply tmp_name_inj.
    - intros p (j & -> & Hj)%list_elem_of_fmap. apply elem_of_seq in Hj.
      assert (is_Some (fs !! tmp_name pre j suf)) as [b Hb].
      { destruct (decide (j = size fs)) as [->|]; [eauto|]. apply Hall. lia. }
      apply list_elem_of_fmap. exists (tmp_name pre j suf, b).
      split; [done|]. by apply elem_of_map_to_list. }
  apply submseteq_length in Hsub. unfold cands in Hsub.
  rewrite !length_fmap, length_seq, length_map_to_list in Hsub. lia.
Qed.

Lemma has_separator_app (s t : string) :
  has_separator (s +:+ t) = has_separator s || has_separator t.
Proof. induction s; simpl; [done|]. by rewrite IHs, orb_assoc. Qed.

Lemma CreateTemp_spec w fs pattern fs' res :
  CreateTemp w fs pattern = (fs', res) →
  match res with
  | inr f =>
      fs !! f = None ∧ fs' = <[f := []]> fs ∧ f ≠ "" ∧
      has_separator pattern = false ∧ tmp_exhausted w pattern = false
  | inl _ =>
      fs' = fs ∧
      (has_separator pattern = true ∨ tmp_exhausted w pattern = true)
  end.
Proof.
  unfold CreateTemp, prefixAndSuffix. intros H.
  destruct (has_separator pattern) eqn:Hsep; simplify_eq/=; [auto|].
  destruct (default _ _) as [pre suf].
  destruct (tmp_exhausted w pattern) eqn:Hex; simplify_eq/=; [auto|].
  split_and!; auto using nextRandom_free, tmp_name_nonempty.
Qed.

Lemma downloadOnDisk_spec w fs res fs' res' err :
  downloadOnDisk w fs res = (fs', res', err) →
  fs ⊆ fs' ∧
  match err with
  | None =>
      ∃ f body, fs !! f = None ∧ f ≠ "" ∧ res' = set_fpath res f ∧
        fs' !! f = Some body ∧ s3_object w (res_Object res) = Some body ∧
        download_ok w res = true
  | Some _ => download_ok w res = false
  end.
Proof.
  unfold downloadOnDisk, download, download_ok. intros H.
  destruct (CreateTemp w fs _) as [fs1 [e|f]] eqn:Hct;
    apply CreateTemp_spec in Hct; simpl in Hct.
  - destruct Hct as [-> Hwhy]. simplify_eq. split; [done|].
    rewrite has_separator_app in Hwhy. simpl in Hwhy.
    destruct Hwhy as [->| ->]; simpl; [done|]. by rewrite andb_false_r.
  - destruct Hct as (Hfree & -> & Hne & Hsep & ->).
    rewrite has_separator_app in Hsep. simpl in Hsep. rewrite Hsep. simpl.
    destruct (s3_object w (res_Object res)) as [body|] eqn:Hobj; simplify_eq.
    + rewrite insert_insert_eq. split; [by apply insert_subseteq|].
      exists f, body. rewrite lookup_insert_eq.
      split_and!; try done; rewrite bool_decide_true; eauto.
    + split; [by apply insert_subseteq|].
      rewrite bool_decide_false; [done|]. by intros [? ?].
Qed.

(** *** Accounting: where every descriptor is *)

Lemma flight_insert (lanes : list Lane) i ln ln' :
  lanes !! i = Some ln →
  flight_descs (<[i := ln']> lanes) ++ (desc <$> lane_items ln)
  ≡ₚ flight_descs lanes ++ (desc <$> lane_items ln').
Proof. apply (concat_fmap_insert (λ ln, desc <$> lane_items ln)). Qed.

Ltac proj_simpl :=
  cbn [destObj queue queue_closed lanes merged_closed main disk bucket
       qlog wlog mlog wk fw lane_items wk_items fw_items app] in *.

(** Closes an accounting goal after a lane was replaced. *)
Ltac perm_lanes Hp Hins :=
  match goal with
  | |- context [flight_descs (<[_ := ?ln']> _)] =>
      specialize (Hins ln'); unfold lane_items in Hins; proj_simpl
  end;
  rewrite ?fmap_app, ?fmap_cons, ?fmap_nil in *;
  rewrite Hp;
  match type of Hins with
  | _ ++ ?X ≡ₚ _ =>
      apply (Permutation_app_inv_l X);
      match goal with
      | |- _ ≡ₚ X ++ ?M ++ ?F ++ ?R =>
          trans (M ++ (F ++ X) ++ R); [rewrite Hins|]; solve_Permutation
      end
  end.

Lemma acc_inv_step w rs l s s' lost :
  acc_inv w rs s lost → step w l s = Some s' → ∃ lost', acc_inv w rs s' lost'.
Proof.
  intros [Hp Hl Hd] Hstep.
  destruct l; unfold_step; repeat case_match; simplify_eq; proj_simpl;
    repeat match goal with
    | H : downloadOnDisk _ _ _ = _ |- _ =>
        apply downloadOnDisk_spec in H as [_ H]
    | H : lanes _ !! _ = Some _ |- _ =>
        pose proof (Forall_lookup_1 _ _ _ _ Hd H);
        pose proof (λ ln', flight_insert _ _ _ ln' H) as Hins;
        apply list_elem_of_lookup_2 in H
    | H : queue _ = _ |- _ => rewrite H in Hp
    end; proj_simpl.
  all: try (exists lost; constructor; proj_simpl; try done;
            first [ perm_lanes Hp Hins
                  | apply Forall_insert; naive_solver
                  | eapply Forall_impl; [done|]; naive_solver ]).
  - exists (res :: lost). constructor; proj_simpl.
    + perm_lanes Hp Hins.
    + by constructor.
    + apply Forall_insert; [|naive_solver].
      eapply Forall_impl; [done|]. naive_solver.
  - destruct H2 as (f & body & _ & _ & -> & _).
    exists lost. constructor; proj_simpl; try done.
    + perm_lanes Hp Hins.
    + apply Forall_insert; naive_solver.
Qed.

Lemma acc_inv_start z dst rs s w :
  Do_start z dst rs = Some s → acc_inv w rs s [].
Proof.
  unfold Do_start. case_match; intros; simplify_eq.
  constructor; simpl; try done.
  - rewrite (right_id_L [] (++)). unfold flight_descs.
    induction (Z.to_nat _); simpl; auto.
  - by apply Forall_replicate.
Qed.

(** *** Staged files *)

Lemma staged_weaken w fs fs' r : fs ⊆ fs' → staged w fs r → staged w fs' r.
Proof.
  intros Hsub (body & ? & ?). exists body. eauto using lookup_weaken.
Qed.

Lemma lanes_staged_weaken w fs fs' Q lanes :
  fs ⊆ fs' → lanes_staged w fs Q lanes → lanes_staged w fs' Q lanes.
Proof.
  intros Hsub H. eapply Forall_impl; [exact H|]. intros ln Hln. simpl in *.
  eapply Forall_impl; [exact Hln|]. intros r [? ?]. eauto using staged_weaken.
Qed.

(** A step of [gen], of a worker or of [merge] keeps the staged files, and
    a file it creates has a name that was free. *)
Lemma worker_step_staged w l s s' (Q : string → Prop) :
  (∀ p, disk s !! p = None → Q p) →
  lanes_staged w (disk s) Q (lanes s) →
  step w l s = Some s' → l ≠ Main → (∀ i, l ≠ ArchiveRecv i) →
  disk s ⊆ disk s' ∧ main s' = main s ∧ bucket s' = bucket s ∧
  mlog s' = mlog s ∧ destObj s' = destObj s ∧
  lanes_staged w (disk s') Q (lanes s').
Proof.
  intros HQ Hst Hstep Hmain Hrecv. unfold lanes_staged in *.
  destruct l; try done; try (by edestruct Hrecv);
    unfold_step; repeat case_match; simplify_eq; proj_simpl;
    repeat match goal with
    | H : downloadOnDisk _ _ _ = _ |- _ =>
        apply downloadOnDisk_spec in H as [Hsub H]
    | H : lanes _ !! _ = Some _ |- _ =>
        pose proof (Forall_lookup_1 _ _ _ _ Hst H) as Hln;
        apply list_elem_of_lookup_2 in H
    end; unfold staged_items in *; proj_simpl.
  all: split_and!; try done.
  all: try (apply Forall_insert; [done|]; by proj_simpl).
  - apply Forall_insert.
    + by apply (lanes_staged_weaken w (disk s) g Q (lanes s) Hsub).
    + proj_simpl. eapply Forall_impl; [exact Hln|].
      intros r0 [? ?]. eauto using staged_weaken.
  - destruct H2 as (f & body & Hfree & Hne & -> & Hf & Hobj & _).
    apply Forall_insert.
    + by apply (lanes_staged_weaken w (disk s) g Q (lanes s) Hsub).
    + proj_simpl. constructor.
      * split; [by exists body|]. by apply HQ.
      * eapply Forall_impl; [exact Hln|].
        intros r0 [? ?]. eauto using staged_weaken.
Qed.

Lemma path_inv_step w l s s' :
  path_inv s → step w l s = Some s' → path_inv s'.
Proof.
  unfold path_inv. intros Hst Hstep.
  destruct l; unfold_step; repeat case_match; simplify_eq; proj_simpl;
    repeat match goal with
    | H : downloadOnDisk _ _ _ = _ |- _ =>
        apply downloadOnDisk_spec in H as [Hsub H]
    | H : lanes _ !! _ = Some _ |- _ =>
        pose proof (Forall_lookup_1 _ _ _ _ Hst H) as Hln;
        apply list_elem_of_lookup_2 in H
    end; unfold staged_items in *; proj_simpl; try done.
  all: try (apply Forall_insert; [done|]; by proj_simpl).
  - match goal with
    | H : ∃ f body, _ |- _ => destruct H as (f & body & Hfree & Hne & -> & _)
    end.
    apply Forall_insert; [done|]. proj_simpl. by constructor.
  - apply Forall_insert; [done|]. proj_simpl.
    rewrite Forall_app in Hln. rewrite (right_id_L [] (++)). by destruct Hln.
Qed.

Lemma path_inv_start z dst rs s : Do_start z dst rs = Some s → path_inv s.
Proof.
  unfold Do_start, path_inv. case_match; intros; simplify_eq/=.
  by apply Forall_replicate.
Qed.

(** Once they have, only [gen] and the calling goroutine can move. *)
Lemma finished_step w l s s' :
  lanes_finished s → step w l s = Some s' → l ≠ Main →
  lanes s' = lanes s ∧ merged_closed s' = merged_closed s ∧
  main s' = main s ∧ bucket s' = bucket s ∧ disk s' = disk s ∧
  mlog s' = mlog s ∧ destObj s' = destObj s.
Proof.
  intros [Hfin Hmc] Hstep Hl.
  destruct l; try done;
    unfold_step; repeat case_match; simplify_eq; proj_simpl;
    repeat match goal with
    | H : lanes _ !! _ = Some _ |- _ =>
        destruct (Forall_lookup_1 _ _ _ _ Hfin H); clear H
    end; simplify_eq/=.
  - done.
  - rewrite Hmc in *. by rewrite andb_false_r in *.
Qed.

(** After [Do] has returned its result is settled. *)
Lemma returned_step w l s s' err :
  main s = MReturn err → step w l s = Some s' →
  main s' = MReturn err ∧ bucket s' = bucket s ∧ destObj s' = destObj s ∧
  mlog s' = mlog s.
Proof.
  intros Hm Hstep.
  destruct l; unfold_step; repeat case_match; simplify_eq; proj_simpl; done.
Qed.

Lemma flight_descs_elem (lanes : list Lane) i ln r :
  lanes !! i = Some ln → r ∈ lane_items ln → desc r ∈ flight_descs lanes.
Proof.
  intros Hi Hr. unfold flight_descs.
  revert i Hi. induction lanes as [|a lanes IH]; intros [|i] Hi;
    simplify_eq/=; apply elem_of_app.
  - left. apply list_elem_of_fmap. eauto.
  - right. eauto.
Qed.

Lemma run_defers_lookup (fs : gmap string (list byte)) defers p :
  p ∉ defers → run_defers fs defers !! p = fs !! p.
Proof.
  revert fs. induction defers as [|d defers IH]; intros fs Hp; [done|].
  apply not_elem_of_cons in Hp as [? ?]. simpl. rewrite IH; [|done].
  unfold Remove. by rewrite lookup_delete_ne.
Qed.

(** *** The calling goroutine *)

Lemma main_inv_main w rs s s' :
  chan_inv rs s → main_inv w rs s → step w Main s = Some s' →
  main_inv w rs s'.
Proof.
  intros Hch Hinv Hstep. unfold main_inv in *. simpl in Hstep.
  unfold main_step in Hstep. destruct (main s) as [|zf zw defers|zf|err] eqn:Hm.
  - destruct Hinv as (Hml & Hb & Hst). simplify_eq. unfold archive_open.
    destruct (CreateTemp w (disk s) "*.s3.zip") as [fs [e|zf]] eqn:Hct;
      apply CreateTemp_spec in Hct; unfold with_main, with_disk; proj_simpl.
    + destruct Hct as [-> [?| ?]]; [done|]. left. split_and!; eauto.
      by left.
    + destruct Hct as (Hfree & -> & _). rewrite Hml.
      split_and!; try done.
      * rewrite lookup_insert_eq. eauto.
      * apply not_elem_of_nil.
      * eapply Forall_impl; [exact Hst|]. intros ln Hln. simpl in *.
        eapply Forall_impl; [exact Hln|]. intros r [Hr _]. split.
        -- eapply staged_weaken; [|done]. by apply insert_subseteq.
        -- destruct Hr as (body & _ & Hr). intros Heq. congruence.
  - destruct Hinv as (Hzw & Hzf & Hdef & Hb & Hst).
    destruct (merged_closed s) eqn:Hmc; [|done].
    assert (lanes_finished s) as Hfin.
    { split; [|done]. destruct Hch as [_ _ _ Hf Hd]. specialize (Hd Hmc).
      apply Forall_forall. intros ln Hln.
      rewrite Forall_forall in Hf, Hd. split; auto. }
    unfold archive_close, with_main, with_disk, failed_to_zip in Hstep.
    unfold lanes_finished in *.
    destruct (zip_close_fails w) eqn:Hcl; simplify_eq; proj_simpl.
    + right. split; [done|]. left. split_and!; eauto.
    + destruct Hfin. split_and!; try done.
      rewrite run_defers_lookup by done. by rewrite lookup_insert_eq.
  - destruct Hinv as (Hfin & Hzf & Hb & Hcl).
    unfold Do_upload, upload, lanes_finished in *. rewrite Hzf, Hb in Hstep.
    destruct Hfin.
    destruct (s3_put_fails w (destObj s)) eqn:Hput; simplify_eq; proj_simpl.
    + right. split; [done|]. left. split_and!; eauto.
    + right. split; [done|]. by right.
  - done.
Qed.

Lemma in_flight_resource w rs s lost i ln r :
  acc_inv w rs s lost → lanes s !! i = Some ln → r ∈ lane_items ln →
  ∃ r0, r0 ∈ rs ∧ desc r0 = desc r.
Proof.
  intros [Hp _ _] Hi Hr.
  assert (desc r ∈ desc <$> rs) as (r0 & ? & ?)%list_elem_of_fmap; [|eauto].
  rewrite Hp, !elem_of_app. right; left. by eapply flight_descs_elem.
Qed.

Lemma main_inv_recv w rs i s s' lost :
  acc_inv w rs s lost → path_inv s → main_inv w rs s →
  step w (ArchiveRecv i) s = Some s' → main_inv w rs s'.
Proof.
  intros Hacc Hpath Hinv Hstep. unfold main_inv in *. simpl in Hstep.
  unfold archive_recv in Hstep.
  destruct (main s) as [|zf zw defers| |] eqn:Hm; try done.
  destruct (lanes s !! i) as [[k [|r|]]|] eqn:Hi; try done.
  destruct Hinv as (Hzw & Hzf & Hdef & Hb & Hst).
  pose proof (Forall_lookup_1 _ _ _ _ Hst Hi) as Hln.
  pose proof (Forall_lookup_1 _ _ _ _ Hpath Hi) as Hne.
  unfold staged_items in Hln, Hne. proj_simpl.
  apply Forall_app in Hln as [Hk [[(body & Hobj & Hfile) Hrzf] _]%Forall_cons].
  apply Forall_app in Hne as [_ [Hne _]%Forall_cons].
  destruct (in_flight_resource w rs s lost i _ r Hacc Hi) as (r0 & Hr0 & Hd).
  { unfold lane_items. proj_simpl. apply elem_of_app. right. by left. }
  injection Hd as Hobj0 Hname0.
  assert (lanes_staged w (disk s) (λ p, p ≠ zf)
            (<[i := {| wk := k; fw := FRecv |}]> (lanes s))) as Hst'.
  { apply Forall_insert; [done|]. unfold staged_items. proj_simpl.
    by rewrite (right_id_L [] (++)). }
  unfold archive_iter, addToZip, failed_to_zip in Hstep.
  apply String.eqb_neq in Hne. rewrite Hne, Hfile in Hstep.
  destruct (zip_create_fails w (FileName r)) eqn:Hcr;
    [|destruct (zip_copy_fails w (FileName r)) eqn:Hcp];
    simplify_eq; proj_simpl.
  - left. split_and!; eauto. right. exists r0. rewrite Hname0. auto.
  - left. split_and!; eauto. right. exists r0. rewrite Hname0. auto.
  - split_and!; try done.
    + rewrite fmap_app. f_equal. simpl. unfold entry_of, src_bytes.
      by rewrite Hobj.
    + apply not_elem_of_cons. auto.
Qed.

Lemma main_inv_other w rs l s s' :
  main_inv w rs s → step w l s = Some s' →
  l ≠ Main → (∀ i, l ≠ ArchiveRecv i) → main_inv w rs s'.
Proof.
  intros Hinv Hstep Hmain Hrecv. unfold main_inv in *.
  destruct (main s) as [|zf zw defers|zf|err] eqn:Hm.
  - destruct Hinv as (Hml & Hb & Hst).
    destruct (worker_step_staged w l s s' (λ _, True))
      as (_ & -> & -> & -> & _ & ?); auto.
    by rewrite Hm.
  - destruct Hinv as (Hzw & [b Hzf] & Hdef & Hb & Hst).
    destruct (worker_step_staged w l s s' (λ p, p ≠ zf))
      as (Hsub & -> & -> & -> & _ & ?); auto.
    { intros p Hp ->. congruence. }
    rewrite Hm. split_and!; eauto using lookup_weaken.
  - destruct Hinv as (Hfin & Hzf & Hb & Hcl).
    destruct (finished_step w l s s' Hfin Hstep Hmain)
      as (Hl & Hmc & -> & -> & -> & -> & _).
    rewrite Hm. split_and!; try done.
    unfold lanes_finished in *. by rewrite Hl, Hmc.
  - destruct (returned_step w l s s' err Hm Hstep) as (-> & -> & -> & ->).
    destruct Hinv as [?|[Hfin ?]]; [by left|right]. split; [|done].
    destruct (finished_step w l s s' Hfin Hstep Hmain) as (Hl & Hmc & _).
    unfold lanes_finished in *. by rewrite Hl, Hmc.
Qed.

(** *** All invariants together *)

Lemma destObj_step w l s s' : step w l s = Some s' → destObj s' = destObj s.
Proof.
  intros Hstep. destruct l; unfold_step; unfold archive_close in *;
    repeat case_match; simplify_eq; proj_simpl; done.
Qed.

Lemma pipe_inv_step w dst rs l s s' :
  pipe_inv w dst rs s → step w l s = Some s' → pipe_inv w dst rs s'.
Proof.
  intros [Hd Hch [lost Hacc] Hpath Hmain] Hstep. constructor.
  - by rewrite (destObj_step w l s s').
  - by eapply chan_inv_step.
  - by eapply acc_inv_step.
  - by eapply path_inv_step.
  - destruct l; try (by eapply main_inv_other).
    + by eapply main_inv_recv.
    + by eapply main_inv_main.
Qed.

Lemma pipe_inv_start w z dst rs s :
  Do_start z dst rs = Some s → pipe_inv w dst rs s.
Proof.
  intros Hs. constructor;
    eauto using chan_inv_start, acc_inv_start, path_inv_start.
  - unfold Do_start in Hs. by case_match; simplify_eq.
  - unfold Do_start in Hs. case_match; simplify_eq.
    unfold main_inv. simpl. split_and!; try done.
    by apply Forall_replicate.
Qed.

Lemma pipe_inv_Do w z dst rs sched s :
  Do w z dst rs sched = Some s → pipe_inv w dst rs s.
Proof.
  unfold Do. destruct (Do_start z dst rs) as [s0|] eqn:E; intros; simplify_eq/=.
  apply run_invariant; eauto using pipe_inv_step, pipe_inv_start.
Qed.

(** ** [Do] returns: no deadlock before the return, and no infinite run *)

Lemma sum_list_insert {A} (f : A → nat) (l : list A) i x y :
  l !! i = Some x →
  sum_list (f <$> <[i := y]> l) + f x = sum_list (f <$> l) + f y.
Proof.
  revert i. induction l as [|a l IH]; intros [|i] Hi; simplify_eq/=; [lia|].
  specialize (IH _ Hi). lia.
Qed.

Lemma step_measure w l s s' : step w l s = Some s' → measure s' < measure s.
Proof.
  intros Hstep. unfold measure.
  destruct l; unfold_step; unfold archive_iter, archive_close, failed_to_zip in *;
    repeat case_match; simplify_eq; proj_simpl;
    repeat match goal with
    | H : lanes _ !! _ = Some _ |- context [<[_ := ?ln']> _] =>
        apply (sum_list_insert lane_measure _ _ _ ln') in H
    | H : queue _ = _ |- _ => rewrite H
    end; unfold lane_measure in *; simpl in *; try lia.
Qed.

Lemma forallb_false_lookup {A} (f : A → bool) (l : list A) :
  forallb f l = false → ∃ i x, l !! i = Some x ∧ f x = false.
Proof.
  induction l as [|a l IH]; simpl; [done|].
  destruct (f a) eqn:E; simpl.
  - intros (i & x & ? & ?)%IH. by exists (S i), x.
  - intros _. by exists 0, a.
Qed.

Lemma progress w s :
  returned s = None → ∃ l s', step w l s = Some s'.
Proof.
  unfold returned. intros Hret.
  destruct (main s) as [|zf zw defers|zf|err] eqn:Hm; try done.
  - exists Main. simpl. unfold main_step. rewrite Hm. eauto.
  - destruct (merged_closed s) eqn:Hmc.
    { exists Main. simpl. unfold main_step. rewrite Hm, Hmc.
      destruct (archive_close _ _ _ _ _). eauto. }
    destruct (forallb forwarder_finished (lanes s)) eqn:Hall.
    { exists MergeClose. simpl. unfold merge_close. rewrite Hall, Hmc. eauto. }
    apply forallb_false_lookup in Hall as (i & ln & Hi & Hfw).
    destruct ln as [k f]. unfold forwarder_finished in Hfw. simpl in Hfw.
    destruct f as [|r|]; try done.
    + destruct k as [|r|r|].
      * destruct (queue s) as [|r rest] eqn:Hq.
        -- destruct (queue_closed s) eqn:Hqc.
           ++ exists (WorkerExit i). simpl. unfold worker_exit.
              rewrite Hqc, Hi. eauto.
           ++ exists GenClose. simpl. unfold gen_close. rewrite Hq, Hqc. eauto.
        -- exists (GenSend i). simpl. unfold gen_send. rewrite Hq, Hi. eauto.
      * exists (Download i). simpl. unfold worker_download. rewrite Hi.
        destruct (downloadOnDisk _ _ _) as [[? ?] [?|]]; eauto.
      * exists (WorkerSend i). simpl. unfold worker_send. rewrite Hi. eauto.
      * exists (ForwarderDone i). simpl. unfold forwarder_done.
        rewrite Hi. eauto.
    + exists (ArchiveRecv i). simpl. unfold archive_recv. rewrite Hm, Hi.
      destruct (archive_iter _ _ _ _ _ _). eauto.
  - exists Main. simpl. unfold main_step. rewrite Hm. eauto.
Qed.

(** Every run can be continued until [Do] returns. *)
Lemma Do_returns w s :
  ∃ sched, is_Some (returned (run w sched s)).
Proof.
  remember (measure s) as n eqn:Hn. revert s Hn.
  induction (lt_wf n) as [n _ IH]. intros s ->.
  destruct (returned s) as [err|] eqn:Hret.
  { exists []. simpl. rewrite Hret. eauto. }
  destruct (progress w s Hret) as (l & s' & Hstep).
  destruct (IH (measure s') (step_measure _ _ _ _ Hstep) s' eq_refl)
    as [sched Hsched].
  exists (l :: sched). rewrite run_cons. unfold sched_step.
  by rewrite Hstep.
Qed.

(** No run takes more steps than [measure] allows. *)
Lemma effective_steps_bounded w sched s :
  (effective_steps w sched s + measure (run w sched s) ≤ measure s)%nat.
Proof.
  revert s. induction sched as [|l sched IH]; intros s; simpl; [lia|].
  unfold sched_step. destruct (step w l s) as [s'|] eqn:Hstep; simpl.
  - specialize (IH s'). apply step_measure in Hstep. lia.
  - apply IH.
Qed.

(** ** What a run of [Do] can rely on *)

Lemma entries_ok_spec w rs : entries_ok w rs = true → ¬ archive_fails w rs.
Proof.
  unfold entries_ok, archive_fails.
  intros [Htmp Hall]%andb_true_iff [Hex|(r & Hr & Hfail)].
  - by rewrite Hex in Htmp.
  - rewrite forallb_forall in Hall. apply list_elem_of_In, Hall in Hr.
    unfold zip_ok in Hr. apply andb_true_iff in Hr as [? ?].
    destruct Hfail as [Hf|Hf]; rewrite Hf in *; done.
Qed.

Lemma upload_ok_spec w dst :
  upload_ok w dst = true →
  zip_close_fails w = false ∧ s3_put_fails w dst = false.
Proof.
  unfold upload_ok. intros [? ?]%andb_true_iff.
  by split; apply negb_true_iff.
Qed.

Lemma download_ok_desc w r r' :
  desc r = desc r' → download_ok w r = download_ok w r'.
Proof. unfold desc, download_ok. by intros [= -> ->]. Qed.

(** With every download succeeding no worker loses a resource. *)
Lemma acc_inv_no_lost w rs s lost :
  downloads_ok w rs = true → acc_inv w rs s lost → lost = [].
Proof.
  intros Hok [Hp Hl _]. destruct lost as [|r lost]; [done|]. exfalso.
  apply Forall_cons in Hl as [Hr _].
  assert (desc r ∈ desc <$> rs) as (r0 & Hd & Hr0)%list_elem_of_fmap.
  { rewrite Hp, !elem_of_app. do 3 right. rewrite fmap_cons. by left. }
  unfold downloads_ok in Hok. rewrite forallb_forall in Hok.
  apply list_elem_of_In, Hok in Hr0.
  rewrite (download_ok_desc w r r0) in Hr by done. congruence.
Qed.

Lemma finished_no_flight (lanes : list Lane) :
  Forall lane_finished lanes → flight_descs lanes = [].
Proof.
  induction 1 as [|[k f] lanes [Hk Hf] _ IH]; [done|].
  simpl in *. subst. unfold flight_descs in *. simpl. done.
Qed.

Lemma lanes_length_step w l s s' :
  step w l s = Some s' → length (lanes s') = length (lanes s).
Proof.
  intros Hstep. destruct l; unfold_step; unfold archive_close in *;
    repeat case_match; simplify_eq; proj_simpl;
    by rewrite ?length_insert.
Qed.

Lemma lanes_length_Do w z dst rs sched s :
  Do w z dst rs sched = Some s →
  length (lanes s) = Z.to_nat (concurrency z).
Proof.
  unfold Do, Do_start. case_match; intros; simplify_eq/=.
  apply (run_invariant w (λ s, length (lanes s) = Z.to_nat (concurrency z))).
  - intros l s1 s2 <- Hstep. by eapply lanes_length_step.
  - simpl. by rewrite length_replicate.
Qed.

(** When the workers are through and no download failed, [gen] is through
    and the archive loop has seen every resource. *)
Lemma finished_all_archived w z dst rs sched s :
  (1 ≤ concurrency z)%Z → downloads_ok w rs = true →
  Do w z dst rs sched = Some s → lanes_finished s →
  all_finished s ∧ entry_of w <$> mlog s ≡ₚ entry_of w <$> rs.
Proof.
  intros Hc Hok HDo [Hfin Hmc].
  pose proof (lanes_length_Do _ _ _ _ _ _ HDo) as Hlen.
  apply pipe_inv_Do in HDo as [_ Hch [lost Hacc] _ _].
  pose proof (acc_inv_no_lost _ _ _ _ Hok Hacc) as ->.
  destruct Hacc as [Hp _ Hd].
  assert (queue_closed s = true) as Hqc.
  { destruct (lanes s) as [|ln lanes] eqn:E; [simpl in Hlen; lia|].
    apply Forall_cons in Hd as [Hd _]. apply Forall_cons in Hfin as [[? ?] _].
    destruct Hd; done. }
  split; [done|].
  rewrite (ci_closed _ _ Hch Hqc), (finished_no_flight _ Hfin) in Hp.
  simpl in Hp. rewrite (right_id_L [] (++)) in Hp.
  assert (∀ l : list Resource, entry_of w <$> l =
    (λ d : Object * string, (d.2, default [] (s3_object w d.1))) <$>
      (desc <$> l)) as Heq.
  { intros l. rewrite <-list_fmap_compose. done. }
  by rewrite !Heq, Hp.
Qed.

(** How [Do] can have returned. *)
Lemma Do_returned w z dst rs sched s err :
  Do w z dst rs sched = Some s → main s = MReturn err →
  (entries_ok w rs = true → lanes_finished s) ∧
  (err = None →
   lanes_finished s ∧
   bucket s = [(dst, zip_encode w (entry_of w <$> mlog s))]) ∧
  (is_Some err → bucket s = []) ∧
  (entries_ok w rs = true → upload_ok w dst = true → err = None).
Proof.
  intros HDo Hm. apply pipe_inv_Do in HDo as [Hd _ _ _ Hmain].
  unfold main_inv in Hmain. rewrite Hm, Hd in Hmain.
  destruct Hmain as [(He & Hb & Hf)|(Hfin & [(He & Hb & Hf)|[-> Hb]])].
  - split_and!; try done.
    + by intros ?%entries_ok_spec.
    + intros ->. by destruct He.
    + by intros ?%entries_ok_spec.
  - split_and!; try done.
    + intros ->. by destruct He.
    + intros _ [Hcl Hput]%upload_ok_spec. destruct Hf; congruence.
  - split_and!; try done.
Qed.

(** *** A run that returns nil has met no failure *)

Lemma zipped_inv_step w l s s' :
  path_inv s → zipped_inv w s → step w l s = Some s' → zipped_inv w s'.
Proof.
  intros Hpath Hinv Hstep. unfold zipped_inv in *.
  destruct l as [i| |i|i|i|i| |i| ];
    [unfold_step; repeat case_match; simplify_eq; proj_simpl; done..| |].
  - simpl in Hstep. unfold archive_recv in Hstep.
    destruct (main s) as [|zf zw defers| |] eqn:Hm; try done.
    destruct (lanes s !! i) as [[k [|r|]]|] eqn:Hi; try done.
    destruct Hinv as [Htmp Hall].
    pose proof (Forall_lookup_1 _ _ _ _ Hpath Hi) as Hne.
    unfold staged_items in Hne. proj_simpl.
    apply Forall_app in Hne as [_ [Hne _]%Forall_cons].
    apply String.eqb_neq in Hne.
    unfold archive_iter, addToZip, failed_to_zip in Hstep. rewrite Hne in Hstep.
    destruct (zip_create_fails w (FileName r)) eqn:Hcr;
      [|destruct (disk s !! fpath r);
        [destruct (zip_copy_fails w (FileName r)) eqn:Hcp|]];
      simplify_eq; proj_simpl; try done.
    split; [done|]. apply Forall_app. split; [done|]. constructor; [|done].
    unfold zip_ok. by rewrite Hcr, Hcp.
  - simpl in Hstep. unfold main_step in Hstep.
    destruct (main s) as [|zf zw defers|zf|err] eqn:Hm; simplify_eq.
    + unfold archive_open, failed_to_zip.
      destruct (CreateTemp w (disk s) "*.s3.zip") as [fs [e|zf]] eqn:Hct;
        apply CreateTemp_spec in Hct; unfold with_main, with_disk; proj_simpl;
        [done|].
      destruct Hct as (_ & _ & _ & _ & ?). by rewrite Hinv.
    + destruct Hinv as [Htmp Hall]. destruct (merged_closed s); [|done].
      unfold archive_close, with_main, with_disk, failed_to_zip in Hstep.
      destruct (zip_close_fails w) eqn:Hcl; simplify_eq; by proj_simpl.
    + destruct Hinv as (Htmp & Hall & Hcl).
      unfold Do_upload, upload in *.
      destruct (disk s !! zf); [destruct (s3_put_fails w _) eqn:Hput|];
        proj_simpl; try done.
      split_and!; try done. unfold upload_ok. by rewrite Hcl, Hput.
Qed.

(** With no download failing, [Do] returns nil only when no stage fails. *)
Lemma Do_nil_no_failure w z dst rs sched s :
  (1 ≤ concurrency z)%Z → downloads_ok w rs = true →
  Do w z dst rs sched = Some s → main s = MReturn None →
  entries_ok w rs = true ∧ upload_ok w dst = true.
Proof.
  intros Hc Hdl HDo Hm.
  destruct (Do_returned _ _ _ _ _ _ _ HDo Hm) as (_ & Hnil & _).
  destruct (Hnil eq_refl) as [Hfin _].
  pose proof (lanes_length_Do _ _ _ _ _ _ HDo) as Hlen.
  pose proof (pipe_inv_Do _ _ _ _ _ _ HDo) as [Hd _ _ _ _].
  assert (path_inv s ∧ zipped_inv w s) as [_ Hz].
  { clear -HDo. unfold Do in HDo.
    destruct (Do_start z dst rs) as [s0|] eqn:E; simplify_eq/=.
    apply (run_invariant w (λ s, path_inv s ∧ zipped_inv w s));
      [|split; [by eapply path_inv_start|]].
    - intros l s1 s2 [? ?] ?. eauto using path_inv_step, zipped_inv_step.
    - unfold Do_start in E. by case_match; simplify_eq. }
  unfold zipped_inv in Hz. rewrite Hm, Hd in Hz.
  destruct Hz as (Htmp & Hall & Hup). split; [|done].
  apply pipe_inv_Do in HDo as [_ Hch [lost Hacc] _ _].
  pose proof (acc_inv_no_lost _ _ _ _ Hdl Hacc) as ->.
  destruct Hacc as [Hp _ Hdn]. destruct Hfin as [Hfin Hmc].
  assert (queue_closed s = true) as Hqc.
  { destruct (lanes s) as [|ln lanes] eqn:E; [simpl in Hlen; lia|].
    apply Forall_cons in Hdn as [Hdn _].
    apply Forall_cons in Hfin as [[? ?] _]. destruct Hdn; done. }
  rewrite (ci_closed _ _ Hch Hqc), (finished_no_flight _ Hfin) in Hp.
  simpl in Hp. rewrite (right_id_L [] (++)) in Hp.
  unfold entries_ok. rewrite Htmp. simpl. apply forallb_forall.
  intros r Hr%list_elem_of_In.
  assert (desc r ∈ desc <$> mlog s) as (r' & Hdr & Hr')%list_elem_of_fmap.
  { rewrite <-Hp. apply list_elem_of_fmap. eauto. }
  rewrite Forall_forall in Hall. apply Hall in Hr'.
  unfold zip_ok, desc in *. injection Hdr as _ ->. done.
Qed.

(** ** The claims *)

(** C6. The task source ([gen]) hands out every descriptor exactly once and
    in input order, whatever the number of workers and the schedule: what
    has been received from the queue, followed by what [gen] still holds,
    is the input list; a receive takes the head of the queue and gives it
    to one worker; the queue is closed only after the whole list has been
    received, and [gen] closes it as soon as nothing is left. *)
Theorem gen_yields_each_once_in_order w z dst rs sched s :
  Do w z dst rs sched = Some s →
  qlog s ++ queue s = rs ∧
  (queue_closed s = true → qlog s = rs) ∧
  (∀ i s', step w (GenSend i) s = Some s' →
     ∃ r, queue s = r :: queue s' ∧ qlog s' = qlog s ++ [r] ∧
          wk <$> lanes s' !! i = Some (WDownload r)) ∧
  (queue s = [] → queue_closed s = false →
   ∃ s', step w GenClose s = Some s' ∧ queue_closed s' = true).
Proof.
  intros HDo. pose proof (chan_inv_Do _ _ _ _ _ _ HDo) as [Hq Hc _ _ _].
  split_and!; try done.
  - intros Hqc. rewrite (Hc Hqc), (right_id_L [] (++)) in Hq. done.
  - intros i s' Hstep. simpl in Hstep. unfold gen_send in Hstep.
    repeat case_match; simplify_eq. proj_simpl. eexists. split_and!; try done.
    rewrite list_lookup_insert_eq; [done|]. by eapply lookup_lt_Some.
  - intros Hqe Hqc. simpl. unfold gen_close. rewrite Hqe, Hqc. eauto.
Qed.

(** C7. The fan-in merger ([merge]) neither drops nor duplicates: what the
    workers have sent is, as a multiset, what [archive] has received plus
    what the forwarders hold; and when [out] is closed every worker has
    closed its channel, every forwarder is done, and what was received is a
    permutation of what was sent. *)
Theorem merge_is_multiset_union w z dst rs sched s :
  Do w z dst rs sched = Some s →
  wlog s ≡ₚ mlog s ++ held s ∧
  (merged_closed s = true →
   Forall lane_finished (lanes s) ∧ held s = [] ∧ mlog s ≡ₚ wlog s).
Proof.
  intros HDo. pose proof (chan_inv_Do _ _ _ _ _ _ HDo) as [_ _ Hm Hf Hd].
  split; [done|]. intros Hmc. specialize (Hd Hmc).
  assert (Forall lane_finished (lanes s)) as Hfin.
  { apply Forall_forall. intros ln Hln.
    rewrite Forall_forall in Hf, Hd. split; auto. }
  assert (held s = []) as Hh.
  { unfold held. clear -Hfin.
    induction Hfin as [|[k f] lanes [Hk Hf] _ IH]; [done|].
    simpl in *. by subst. }
  split_and!; try done. by rewrite Hm, Hh, (right_id_L [] (++)).
Qed.

(** C4. With at least one worker, a non-empty list of resources with
    pairwise distinct archive paths, and every download, archive write and
    upload succeeding: the run can always be continued until [Do] returns,
    and when [Do] has returned it has returned nil and the one object it
    has uploaded to the destination is an archive whose entries are, up to
    their order, one per resource: named by its [FileName], holding the
    bytes of its source object. *)
Theorem Do_archives_every_resource w c dst rs sched s :
  (1 ≤ c)%Z → rs ≠ [] → NoDup (FileName <$> rs) →
  downloads_ok w rs = true → entries_ok w rs = true →
  upload_ok w dst = true →
  Do w (New [WithConcurrency c]) dst rs sched = Some s →
  (∃ more, is_Some (returned (run w more s))) ∧
  (∀ err, main s = MReturn err →
     err = None ∧
     ∃ zw, bucket s = [(dst, zip_encode w zw)] ∧
           zw ≡ₚ entry_of w <$> rs ∧ NoDup zw.*1 ∧
           Forall (λ r, s3_object w (res_Object r) = Some (src_bytes w r)) rs).
Proof.
  intros Hc Hne Hnd Hdl Hen Hup HDo. split; [apply Do_returns|].
  intros err Hm.
  destruct (Do_returned _ _ _ _ _ _ _ HDo Hm) as (_ & Hnil & _ & Herr).
  specialize (Herr Hen Hup). subst err. split; [done|].
  destruct (Hnil eq_refl) as [Hfin Hb].
  destruct (finished_all_archived w (New [WithConcurrency _]) dst rs sched s
              Hc Hdl HDo Hfin)
    as [_ Hperm].
  exists (entry_of w <$> mlog s). split_and!; try done.
  - rewrite Hperm, <-list_fmap_compose. done.
  - apply Forall_forall. intros r Hr.
    unfold downloads_ok in Hdl. rewrite forallb_forall in Hdl.
    apply list_elem_of_In, Hdl in Hr. unfold download_ok in Hr.
    apply andb_true_iff in Hr as [_ [b Hb']%bool_decide_eq_true].
    unfold src_bytes. by rewrite Hb'.
Qed.

(** C8. For a fixed destination and list of resources whose downloads all
    succeed, two runs of [Do] that have returned, with any numbers of
    workers [c1], [c2 ≥ 1] and any schedules, agree: either both have
    returned nil and have uploaded archives with the same entries, up to
    their order, or both have returned an error and have uploaded
    nothing. *)
Theorem Do_entries_independent_of_concurrency w dst rs c1 c2 sched1 sched2
    s1 s2 err1 err2 :
  (1 ≤ c1)%Z → (1 ≤ c2)%Z → downloads_ok w rs = true →
  Do w (New [WithConcurrency c1]) dst rs sched1 = Some s1 →
  Do w (New [WithConcurrency c2]) dst rs sched2 = Some s2 →
  main s1 = MReturn err1 → main s2 = MReturn err2 →
  (err1 = None ∧ err2 = None ∧
   ∃ zw1 zw2, bucket s1 = [(dst, zip_encode w zw1)] ∧
              bucket s2 = [(dst, zip_encode w zw2)] ∧ zw1 ≡ₚ zw2) ∨
  (is_Some err1 ∧ is_Some err2 ∧ bucket s1 = [] ∧ bucket s2 = []).
Proof.
  intros Hc1 Hc2 Hdl HDo1 HDo2 Hm1 Hm2.
  destruct (Do_returned _ _ _ _ _ _ _ HDo1 Hm1) as (_ & Hnil1 & Herr1 & Hok1).
  destruct (Do_returned _ _ _ _ _ _ _ HDo2 Hm2) as (_ & Hnil2 & Herr2 & Hok2).
  assert (err1 = None ↔ err2 = None) as Hiff.
  { split; intros ->.
    - destruct (Do_nil_no_failure w (New [WithConcurrency c1]) dst rs
                  sched1 s1); auto.
    - destruct (Do_nil_no_failure w (New [WithConcurrency c2]) dst rs
                  sched2 s2); auto. }
  destruct err1 as [e1|]; [right|left].
  - destruct err2 as [e2|].
    + split_and!; eauto.
    + destruct Hiff as [_ Hiff]. by specialize (Hiff eq_refl).
  - rewrite (proj1 Hiff eq_refl) in *.
    destruct (Hnil1 eq_refl) as [Hfin1 Hb1].
    destruct (Hnil2 eq_refl) as [Hfin2 Hb2].
    destruct (finished_all_archived w (New [WithConcurrency _]) dst rs
                sched1 s1 Hc1 Hdl HDo1 Hfin1) as [_ Hp1].
    destruct (finished_all_archived w (New [WithConcurrency _]) dst rs
                sched2 s2 Hc2 Hdl HDo2 Hfin2) as [_ Hp2].
    split_and!; try done.
    exists (entry_of w <$> mlog s1), (entry_of w <$> mlog s2).
    split_and!; try done. by rewrite Hp1, Hp2.
Qed.

(** After a return with every goroutine through, nothing can move. *)
Lemma all_finished_quiescent w s err :
  main s = MReturn err → all_finished s → quiescent w s.
Proof.
  intros Hm (Hqc & Hfin & Hmc) l.
  destruct (step w l s) as [s'|] eqn:Hstep; [exfalso|done].
  destruct l; unfold_step; repeat case_match; simplify_eq;
    repeat match goal with
    | H : lanes _ !! _ = Some _ |- _ =>
        destruct (Forall_lookup_1 _ _ _ _ Hfin H); clear H
    end; simplify_eq/=.
  rewrite Hmc in *. by rewrite andb_false_r in *.
Qed.

(** C3, amended. With at least one worker, every download succeeding and
    every entry of the archive written without error, when [Do] has
    returned (with nil or with the error of closing the archive or of the
    upload) every goroutine it has started has run to its end: [gen] has
    closed the queue, every worker and every forwarder has returned, [out]
    is closed, and no step is left to take. *)
Theorem Do_unwinds_when_nothing_fails w c dst rs sched s err :
  (1 ≤ c)%Z → downloads_ok w rs = true → entries_ok w rs = true →
  Do w (New [WithConcurrency c]) dst rs sched = Some s →
  main s = MReturn err →
  all_finished s ∧ quiescent w s.
Proof.
  intros Hc Hdl Hen HDo Hm.
  destruct (Do_returned _ _ _ _ _ _ _ HDo Hm) as (Hfin & _).
  destruct (finished_all_archived w (New [WithConcurrency _]) dst rs sched s
              Hc Hdl HDo (Hfin Hen)) as [Hall _].
  eauto using all_finished_quiescent.
Qed.

(** What [archive] has received carried the name of a transient file. *)
Lemma received_have_paths w z dst rs sched s :
  Do w z dst rs sched = Some s →
  path_inv s ∧ Forall (λ r, fpath r ≠ "") (mlog s).
Proof.
  unfold Do. destruct (Do_start z dst rs) as [s0|] eqn:E; intros; simplify_eq/=.
  apply (run_invariant w
    (λ s, path_inv s ∧ Forall (λ r, fpath r ≠ "") (mlog s))).
  - intros l s1 s2 [Hp Hml] Hstep. split; [by eapply path_inv_step|].
    destruct l; unfold_step; unfold archive_close in *;
      repeat case_match; simplify_eq; proj_simpl; try done.
    apply Forall_app. split; [done|]. constructor; [|done].
    match goal with
    | H : lanes _ !! _ = Some _ |- _ =>
        pose proof (Forall_lookup_1 _ _ _ _ Hp H) as Hln
    end.
    unfold staged_items in Hln. proj_simpl.
    by apply Forall_app in Hln as [_ [? _]%Forall_cons].
  - split; [by eapply path_inv_start|].
    unfold Do_start in E. by case_match; simplify_eq.
Qed.

(** C5, amended. [archive] skips a resource that has no transient file
    name: the turn of the loop changes nothing and the loop goes on.  In a
    run of [Do] no such resource gets there: none is held by a worker that
    has downloaded it or by a forwarder, and none has been received by
    [archive]. *)
Theorem archive_skips_unstaged_resource w z dst rs sched s fs zf zw defers r :
  fpath r = "" → Do w z dst rs sched = Some s →
  archive_iter w fs zf zw defers r = (fs, MRange zf zw defers) ∧
  (r ∉ mlog s) ∧ Forall (λ ln, r ∉ staged_items ln) (lanes s).
Proof.
  intros Hr HDo. destruct (received_have_paths _ _ _ _ _ _ HDo) as [Hp Hml].
  split_and!.
  - unfold archive_iter. by rewrite Hr.
  - intros Hin. rewrite Forall_forall in Hml. by apply Hml in Hin.
  - eapply Forall_impl; [exact Hp|]. intros ln Hln Hin. simpl in *.
    rewrite Forall_forall in Hln. by apply Hln in Hin.
Qed.

(** *** No workers *)

Lemma zero_inv_step w dst rs l s s' :
  tmp_exhausted w "*.s3.zip" = false → upload_ok w dst = true →
  zero_inv w dst rs s → step w l s = Some s' → zero_inv w dst rs s'.
Proof.
  intros Htmp [Hcl Hput]%upload_ok_spec (Hl & Hq & Hd & Hmain) Hstep.
  unfold zero_inv in *.
  destruct l as [i| |i|i|i|i| |i| ]; unfold_step;
    rewrite ?Hl in Hstep; simpl in Hstep;
    [repeat case_match; simplify_eq; proj_simpl;
     split_and!; first [done | congruence | by destruct_and?; simplify_eq]..|].
  destruct (main s) as [|zf zw defers|zf|err] eqn:Hm; simplify_eq.
  - destruct (CreateTemp w (disk s) "*.s3.zip") as [fs [e|zf]] eqn:Hct;
      apply CreateTemp_spec in Hct; proj_simpl.
    + destruct Hct as [_ [?|?]]; [done|congruence].
    + destruct Hct as (_ & -> & _). rewrite lookup_insert_eq.
      split_and!; eauto.
  - destruct Hmain as (-> & -> & Hzf & Hb).
    destruct (merged_closed s); [|done].
    unfold archive_close in Hstep. rewrite Hcl in Hstep. simplify_eq.
    proj_simpl. split_and!; try done. simpl. by rewrite lookup_insert_eq.
  - destruct Hmain as [Hzf Hb]. unfold upload in *.
    rewrite Hzf, Hb, Hput. by proj_simpl.
Qed.

(** C10, amended.  [New] and [WithConcurrency] take any integer as it is.
    With [concurrency = 0] [Do] starts no worker: nothing is ever taken
    from the task queue, the run can always be continued until [Do]
    returns, and [Do] returns nil after uploading an archive without
    entries.  With [concurrency < 0] [Do] panics in [make] before it starts
    a worker, and uploads nothing. *)
Theorem Do_without_workers w c dst rs sched :
  (c ≤ 0)%Z → rs ≠ [] →
  tmp_exhausted w "*.s3.zip" = false → upload_ok w dst = true →
  concurrency (New [WithConcurrency c]) = c ∧
  match Do w (New [WithConcurrency c]) dst rs sched with
  | None => (c < 0)%Z
  | Some s =>
      c = 0%Z ∧ lanes s = [] ∧ queue s = rs ∧ qlog s = [] ∧
      (∃ more, is_Some (returned (run w more s))) ∧
      (∀ err, main s = MReturn err →
         err = None ∧ bucket s = [(dst, zip_encode w [])])
  end.
Proof.
  intros Hc Hne Htmp Hup. split; [done|].
  destruct (Do _ _ _ _ _) as [s|] eqn:HDo.
  - assert (length (qlog s) + length (queue s) = length rs) as Hlen.
    { pose proof (chan_inv_Do _ _ _ _ _ _ HDo) as [Hq _ _ _ _].
      by rewrite <-Hq, length_app. }
    unfold Do, Do_start in HDo. simpl in HDo.
    destruct (c <? 0)%Z eqn:Hneg; simplify_eq/=.
    apply Z.ltb_ge in Hneg. assert (c = 0%Z) as -> by lia.
    assert (zero_inv w dst rs
      (run w sched (mkState dst rs false [] false MArchive ∅ [] [] [] [])))
      as (Hl & Hqu & _ & Hmain).
    { apply (run_invariant w (zero_inv w dst rs)).
      - intros l s1 s2. by apply zero_inv_step.
      - by unfold zero_inv. }
    simpl in *. split_and!; try done.
    + rewrite Hqu in Hlen. destruct (qlog _); [done|]. simpl in Hlen. lia.
    + apply Do_returns.
    + intros err Hm. by rewrite Hm in Hmain.
  - unfold Do, Do_start in HDo. simpl in HDo.
    destruct (c <? 0)%Z eqn:Hneg; simplify_eq/=. by apply Z.ltb_lt.
Qed.

(** *** The claims on the store *)

(** C1. A failed download is not reported.  Two workers, three resources,
    the object of the second one is missing: [downloadOnDisk] returns the
    error, the worker drops it, and [Do] returns nil after uploading an
    archive of the two other resources. *)
Theorem Do_swallows_download_failure :
  (downloadOnDisk demo_world ∅ resMissing).2
  = Some (Errorf "failed to download" (Cause "GetObject failed")) ∧
  (λ s, (main s, bucket s)) <$>
    Do demo_world (New [WithConcurrency 2]) dest [resA; resMissing; resB]
      sched_one_download_fails
  = Some (MReturn None,
          [(dest, plain_zip [("a.txt", String.list_byte_of_string "alpha");
                             ("b.txt", String.list_byte_of_string "beta")])]).
Proof. split; vm_compute; reflexivity. Qed.

(** C2. Transient files are left behind.  After the run of C1 the file
    created for the failed download still exists when [Do] has returned;
    and when [addToZip] fails on the second entry, [Do] returns the error
    and the temporary file of the archive still exists.  (When nothing
    fails, as in the run with two workers, no file is left.) *)
Theorem Do_leaves_transient_files :
  (λ s, (main s, map_to_list (disk s))) <$>
    Do demo_world (New [WithConcurrency 2]) dest [resA; resMissing; resB]
      sched_one_download_fails
  = Some (MReturn None, [("/tmp/0.m.txt", [])]) ∧
  (λ s, (main s, map_to_list (disk s))) <$>
    Do copy_fails_world (New []) dest [resA; resB] sched_one_worker
  = Some (MReturn (Some (Errorf "failed to zip"
            (Errorf "failed to compress a file" (Cause "io.Copy")))),
          [("/tmp/0.s3.zip", [])]) ∧
  (λ s, (main s, map_to_list (disk s))) <$>
    Do demo_world (New [WithConcurrency 2]) dest [resA; resB]
      sched_two_workers
  = Some (MReturn None, []).
Proof. split_and!; vm_compute; reflexivity. Qed.

(** C9. An archive path with a slash is not staged.  For the resource
    ["bar/baz.txt"] of the README [os.CreateTemp] refuses the pattern,
    [downloadOnDisk] fails, the worker returns, and [Do] returns nil after
    uploading an archive without entries. *)
Theorem nested_archive_path_is_not_staged :
  (downloadOnDisk demo_world ∅ resNested).2
  = Some (Cause "pattern contains path separator") ∧
  (λ s, (main s, bucket s, mlog s)) <$>
    Do demo_world (New []) dest [resNested] sched_worker_gives_up
  = Some (MReturn None, [(dest, plain_zip [])], []).
Proof. split; vm_compute; reflexivity. Qed.

(** C3 as stated fails: one worker, two resources, the first download
    fails.  [Do] returns nil, and from then on nothing can move while
    [gen] is still in [ch <- res] with the second resource. *)
Lemma gen_stays_blocked_after_return :
  ∃ s, Do demo_world (New []) dest [resMissing; resA] sched_worker_gives_up
       = Some s ∧
       main s = MReturn None ∧ quiescent demo_world s ∧
       queue s = [resA] ∧ queue_closed s = false ∧ ¬ all_finished s.
Proof.
  eexists. split; [reflexivity|].
  split; [vm_compute; reflexivity|].
  split; [|split; [vm_compute; reflexivity|split; [vm_compute; reflexivity|]]].
  - intros l. destruct l as [i| |i|i|i|i| |i| ];
      try destruct i as [|i]; vm_compute; reflexivity.
  - intros [Hqc _]. vm_compute in Hqc. discriminate.
Qed.

(** C5 as stated fails: [archive] receives a resource without transient
    file name, skips it, and the run ends with nil and an uploaded
    archive. *)
Lemma archive_skips_silently :
  fpath resA = "" ∧
  (λ s, (mlog s, main s, bucket s)) (run demo_world sched_drain unstaged_state)
  = ([resA], MReturn None, [(dest, plain_zip [])]).
Proof. split; vm_compute; reflexivity. Qed.

(** C10 as stated fails for a negative concurrency: [Do] panics. *)
Lemma Do_panics_on_negative_concurrency :
  Do demo_world (New [WithConcurrency (-1)]) dest [resA] sched_main_only
  = None.
Proof. reflexivity. Qed.

(** *** The theorems at work *)

Lemma gen_yields_each_once_in_order_witness :
  ∃ s, Do demo_world (New [WithConcurrency 2]) dest [resA; resB]
         sched_two_workers = Some s ∧
       qlog s ++ queue s = [resA; resB] ∧
       (queue_closed s = true → qlog s = [resA; resB]).
Proof.
  eexists. split; [reflexivity|].
  match goal with
  | |- context [queue ?s] =>
      destruct (gen_yields_each_once_in_order demo_world
                  (New [WithConcurrency 2]) dest [resA; resB]
                  sched_two_workers s eq_refl) as (H1 & H2 & _)
  end.
  exact (conj H1 H2).
Defined.

Lemma merge_is_multiset_union_witness :
  ∃ s, Do demo_world (New [WithConcurrency 2]) dest [resA; resB]
         sched_two_workers = Some s ∧
       wlog s ≡ₚ mlog s ++ held s.
Proof.
  eexists. split; [reflexivity|].
  match goal with
  | |- context [held ?s] =>
      exact (proj1 (merge_is_multiset_union demo_world
                      (New [WithConcurrency 2]) dest [resA; resB]
                      sched_two_workers s eq_refl))
  end.
Defined.

Lemma Do_archives_every_resource_witness :
  ∃ s, Do demo_world (New [WithConcurrency 2]) dest [resA; resB]
         sched_two_workers = Some s ∧
       main s = MReturn None ∧
       ∃ zw, bucket s = [(dest, plain_zip zw)] ∧
             zw ≡ₚ [("a.txt", String.list_byte_of_string "alpha");
                    ("b.txt", String.list_byte_of_string "beta")].
Proof.
  eexists. split; [reflexivity|]. split; [vm_compute; reflexivity|].
  match goal with
  | |- context [bucket ?s] =>
      destruct (Do_archives_every_resource demo_world 2 dest [resA; resB]
                  sched_two_workers s) as [_ H];
        [lia|done|by apply (bool_decide_unpack _)|reflexivity..|]
  end.
  destruct (H None) as (_ & zw & Hb & Hp & _); [vm_compute; reflexivity|].
  exists zw. exact (conj Hb Hp).
Defined.

Lemma Do_entries_independent_of_concurrency_witness :
  ∃ s1 s2,
    Do demo_world (New [WithConcurrency 1]) dest [resA; resB]
      sched_one_worker = Some s1 ∧
    Do demo_world (New [WithConcurrency 2]) dest [resA; resB]
      sched_two_workers = Some s2 ∧
    ∃ zw1 zw2, bucket s1 = [(dest, plain_zip zw1)] ∧
               bucket s2 = [(dest, plain_zip zw2)] ∧ zw1 ≡ₚ zw2.
Proof.
  eexists _, _. split; [reflexivity|]. split; [reflexivity|].
  match goal with
  | |- context [bucket ?s1 = [(_, plain_zip _)] ∧ bucket ?s2 = _ ∧ _] =>
      destruct (Do_entries_independent_of_concurrency demo_world dest
                  [resA; resB] 1 2 sched_one_worker sched_two_workers
                  s1 s2 None None) as [(_ & _ & H)|(_ & _ & H & _)];
        [lia|lia|reflexivity|reflexivity|reflexivity|
         vm_compute; reflexivity|vm_compute; reflexivity| |]
  end.
  - exact H.
  - vm_compute in H. discriminate H.
Defined.

Lemma Do_unwinds_when_nothing_fails_witness :
  ∃ s, Do demo_world (New [WithConcurrency 2]) dest [resA; resB]
         sched_two_workers = Some s ∧
       all_finished s ∧ quiescent demo_world s.
Proof.
  eexists. split; [reflexivity|].
  apply (Do_unwinds_when_nothing_fails demo_world 2 dest [resA; resB]
           sched_two_workers _ None);
    [lia|reflexivity|reflexivity|reflexivity|vm_compute; reflexivity].
Defined.

Lemma archive_skips_unstaged_resource_witness :
  ∃ s, Do demo_world (New [WithConcurrency 2]) dest [resA; resB]
         sched_two_workers = Some s ∧
       archive_iter demo_world ∅ "/tmp/0.s3.zip" [] [] resA
       = (∅, MRange "/tmp/0.s3.zip" [] []) ∧
       resA ∉ mlog s.
Proof.
  eexists. split; [reflexivity|].
  match goal with
  | |- context [mlog ?s] =>
      destruct (archive_skips_unstaged_resource demo_world
                  (New [WithConcurrency 2]) dest [resA; resB]
                  sched_two_workers s ∅ "/tmp/0.s3.zip" [] [] resA
                  eq_refl eq_refl) as (H1 & H2 & _)
  end.
  exact (conj H1 H2).
Defined.

Lemma Do_without_workers_witness :
  concurrency (New [WithConcurrency 0]) = 0%Z ∧
  match Do demo_world (New [WithConcurrency 0]) dest [resA] sched_main_only
  with
  | None => (0 < 0)%Z
  | Some s =>
      0%Z = 0%Z ∧ lanes s = [] ∧ queue s = [resA] ∧ qlog s = [] ∧
      (∃ more, is_Some (returned (run demo_world more s))) ∧
      (∀ err, main s = MReturn err →
         err = None ∧ bucket s = [(dest, plain_zip [])])
  end.
Proof.
  apply (Do_without_workers demo_world 0 dest [resA] sched_main_only);
    [lia|done|reflexivity|reflexivity].
Defined.

(** * Further properties of the package *)

(** ** [New] and its options *)

(** X1. Without options [New] sets the default concurrency 1, and of the
    options it is given the last [WithConcurrency] decides, whatever
    options come before it. *)
Theorem New_last_option_wins (opts : list configOption) (c : Z) :
  concurrency (New []) = 1%Z ∧
  concurrency (New (opts ++ [WithConcurrency c])) = c.
Proof. split; [done|]. unfold New. by rewrite foldl_app. Qed.

(** ** [downloadOnDisk] *)

(** X2. When the archive path holds no separator, a temporary file can be
    created and the object exists, [downloadOnDisk] succeeds: it adds one
    file under a name that was free and is not empty, holding the bytes of
    the object, changes no other file, and returns the resource with that
    name as [fpath] and its [Object] and [FileName] as they were. *)
Theorem downloadOnDisk_stages_object w fs res :
  download_ok w res = true →
  ∃ f body,
    downloadOnDisk w fs res = (<[f := body]> fs, set_fpath res f, None) ∧
    fs !! f = None ∧ f ≠ "" ∧ s3_object w (res_Object res) = Some body.
Proof.
  unfold download_ok.
  intros [[Hsep Hex]%andb_true_iff [body Hobj]%bool_decide_eq_true]%andb_true_iff.
  apply negb_true_iff in Hsep, Hex.
  destruct (CreateTemp w fs ("*." +:+ FileName res)) as [fs1 [e|f]] eqn:Hct;
    pose proof (CreateTemp_spec _ _ _ _ _ Hct) as Hspec; simpl in Hspec.
  - destruct Hspec as [_ [Hs|He]]; [|congruence].
    rewrite has_separator_app in Hs. simpl in Hs. congruence.
  - destruct Hspec as (Hfree & -> & Hne & _). exists f, body.
    unfold downloadOnDisk, download. rewrite Hct, Hobj.
    by rewrite insert_insert_eq.
Qed.

(** X3. Otherwise [downloadOnDisk] fails and returns the resource as it
    got it, without [fpath].  When no temporary file could be created the
    disk is as before and the error is the one of [os.CreateTemp]; when the
    object could not be fetched the error is wrapped as a failed download,
    and the empty temporary file that was created for it stays on the
    disk. *)
Theorem downloadOnDisk_reports_failure w fs res :
  download_ok w res = false →
  ∃ fs' err,
    downloadOnDisk w fs res = (fs', res, Some err) ∧
    ((fs' = fs ∧ (∀ msg cause, err ≠ Errorf msg cause) ∧
      (has_separator (FileName res) = true ∨
       tmp_exhausted w ("*." +:+ FileName res) = true)) ∨
     (∃ f cause, fs !! f = None ∧ fs' = <[f := []]> fs ∧
                 err = Errorf "failed to download" cause ∧
                 s3_object w (res_Object res) = None)).
Proof.
  intros Hok. unfold downloadOnDisk, download.
  destruct (CreateTemp w fs ("*." +:+ FileName res)) as [fs1 [e|f]] eqn:Hct;
    pose proof (CreateTemp_spec _ _ _ _ _ Hct) as Hspec; simpl in Hspec.
  - destruct Hspec as [-> Hwhy]. exists fs, e. split; [done|]. left.
    rewrite has_separator_app in Hwhy. simpl in Hwhy. split_and!; try done.
    unfold CreateTemp in Hct. repeat case_match; by simplify_eq.
  - destruct Hspec as (Hfree & -> & Hne & Hsep & Hex).
    rewrite has_separator_app in Hsep. simpl in Hsep.
    unfold download_ok in Hok. rewrite Hsep, Hex in Hok. simpl in Hok.
    apply bool_decide_eq_false in Hok.
    destruct (s3_object w (res_Object res)) as [body|] eqn:Hobj.
    { destruct Hok. eauto. }
    eexists _, _. split; [done|]. right. eauto 10.
Qed.

(** ** What [Do] uploads and what it returns *)

(** X4. [Do] writes to the storage at most once, to the destination only,
    and only when it returns nil: in every state of every run the bucket
    is untouched, or [Do] has returned nil and the bucket holds one object
    at the destination. *)
Theorem Do_uploads_at_most_once w z dst rs sched s :
  Do w z dst rs sched = Some s →
  bucket s = [] ∨
  (main s = MReturn None ∧ ∃ body, bucket s = [(dst, body)]).
Proof.
  intros HDo. apply pipe_inv_Do in HDo as [Hd _ _ _ Hmain].
  unfold main_inv in Hmain. rewrite Hd in Hmain.
  destruct (main s) as [|zf zw defers|zf|err]; try (left; naive_solver).
  destruct Hmain as [(_ & ? & _)|(_ & [(_ & ? & _)|[-> ?]])]; eauto.
Qed.

(** X5. Without resources [Do] uploads an archive without entries and
    returns nil, for every number of workers that is not negative, when the
    file of the archive can be created, the zip writer closed and the
    archive uploaded. *)
Theorem Do_nothing_to_archive w z dst sched s err :
  tmp_exhausted w "*.s3.zip" = false → upload_ok w dst = true →
  Do w z dst [] sched = Some s → main s = MReturn err →
  err = None ∧ bucket s = [(dst, zip_encode w [])].
Proof.
  intros Htmp [Hcl Hput]%upload_ok_spec HDo Hm.
  apply pipe_inv_Do in HDo as [Hd _ [lost [Hp _ _]] _ Hmain].
  assert (mlog s = []) as Hml.
  { simpl in Hp. symmetry in Hp. apply Permutation_nil_r in Hp.
    apply app_eq_nil in Hp as [Hp _]. by apply fmap_nil_inv in Hp. }
  unfold main_inv in Hmain. rewrite Hm, Hd, Hml in Hmain.
  destruct Hmain as [(_ & _ & Hf)|(_ & [(_ & _ & Hf)|[-> Hb]])].
  - destruct Hf as [?|(r & Hr & _)]; [congruence|]. by apply elem_of_nil in Hr.
  - destruct Hf; congruence.
  - done.
Qed.

(** ** Termination *)

Lemma run_app w sched1 sched2 s :
  run w (sched1 ++ sched2) s = run w sched2 (run w sched1 s).
Proof. apply foldl_app. Qed.

(** X6. Whatever fails, [Do] is never stuck before it returns: in every
    state of every run in which [Do] has not returned some goroutine can
    take a step, and the run can be continued to a state in which [Do] has
    returned. *)
Theorem Do_can_always_return w z dst rs sched s :
  Do w z dst rs sched = Some s →
  (returned s = None → ∃ l s', step w l s = Some s') ∧
  ∃ more s', Do w z dst rs (sched ++ more) = Some s' ∧ is_Some (returned s').
Proof.
  intros HDo. split; [apply progress|].
  destruct (Do_returns w s) as [more Hret]. exists more, (run w more s).
  split; [|done]. unfold Do in *.
  destruct (Do_start z dst rs) as [s0|]; simplify_eq/=. by rewrite run_app.
Qed.

Lemma measure_start z dst rs s0 :
  Do_start z dst rs = Some s0 →
  measure s0 = 4 * length rs + 2 * Z.to_nat (concurrency z) + 5.
Proof.
  unfold Do_start. case_match; intros; simplify_eq. unfold measure. simpl.
  assert (sum_list (lane_measure <$>
            replicate (Z.to_nat (concurrency z)) (mkLane WRecv FRecv))
          = 2 * Z.to_nat (concurrency z)) as ->; [|lia].
  induction (Z.to_nat _) as [|n IH]; [done|].
  change (replicate (S n) ?x) with (x :: replicate n x).
  rewrite fmap_cons. change (sum_list (?a :: ?l)) with (a + sum_list l).
  rewrite IH. unfold lane_measure. simpl. lia.
Qed.

(** X7. No run of [Do] goes on for ever: under every schedule, of the
    scheduling choices at most [4 * length resources + 2 * concurrency + 5]
    are steps, whatever fails. *)
Theorem Do_steps_bounded w z dst rs sched s0 :
  Do_start z dst rs = Some s0 →
  (effective_steps w sched s0
   ≤ 4 * length rs + 2 * Z.to_nat (concurrency z) + 5)%nat.
Proof.
  intros Hs. rewrite <-(measure_start _ _ _ _ Hs).
  pose proof (effective_steps_bounded w sched s0). lia.
Qed.

(** ** What the archive holds *)

Lemma fetched_inv_step w l s s' :
  fetched_inv w s → step w l s = Some s' → fetched_inv w s'.
Proof.
  unfold fetched_inv. intros [Hml Hst] Hstep.
  destruct l; unfold_step; unfold archive_close in *;
    repeat case_match; simplify_eq; proj_simpl;
    repeat match goal with
    | H : downloadOnDisk _ _ _ = _ |- _ =>
        apply downloadOnDisk_spec in H as [Hsub H]
    | H : lanes _ !! _ = Some _ |- _ =>
        pose proof (Forall_lookup_1 _ _ _ _ Hst H) as Hln;
        apply list_elem_of_lookup_2 in H
    end; unfold staged_items in *; proj_simpl; (split; [try done|]);
    try done.
  all: try (apply Forall_insert; [done|]; by proj_simpl).
  all: try rewrite (right_id_L [] (++)) in *.
  - match goal with
    | H : ∃ f body, _ |- _ => destruct H as (f & body & _ & _ & -> & _ & _ & ?)
    end.
    apply Forall_insert; [done|]. proj_simpl. by constructor.
  - apply Forall_app in Hln as [_ [? _]%Forall_cons].
    apply Forall_app. split; [done|]. by constructor.
  - apply Forall_insert; [done|]. proj_simpl.
    apply Forall_app in Hln as [? _]. by rewrite (right_id_L [] (++)).
Qed.

Lemma fetched_inv_Do w z dst rs sched s :
  Do w z dst rs sched = Some s → fetched_inv w s.
Proof.
  unfold Do. destruct (Do_start z dst rs) as [s0|] eqn:E; intros; simplify_eq/=.
  apply run_invariant; eauto using fetched_inv_step.
  unfold Do_start in E. case_match; simplify_eq. split; simpl; [done|].
  by apply Forall_replicate.
Qed.

(** X8. When [Do] has returned nil with at least one worker, the archive
    it has uploaded holds the entries of resources that were downloaded,
    each from an object that exists, and every resource it was given is in
    the archive, or its download has failed, or it is still in the task
    queue; resources are left in the queue only when a download has
    failed.  No archive path is checked against another: resources of the
    same [FileName] get an entry each. *)
Theorem Do_archives_what_was_downloaded w z dst rs sched s :
  (1 ≤ concurrency z)%Z →
  Do w z dst rs sched = Some s → main s = MReturn None →
  ∃ got lost,
    bucket s = [(dst, zip_encode w (entry_of w <$> got))] ∧
    desc <$> rs ≡ₚ (desc <$> got) ++ (desc <$> lost) ++ (desc <$> queue s) ∧
    Forall (λ r, download_ok w r = true) got ∧
    Forall (λ r, download_ok w r = false) lost ∧
    (lost = [] → queue s = []).
Proof.
  intros Hc HDo Hm.
  destruct (Do_returned _ _ _ _ _ _ _ HDo Hm) as (_ & Hnil & _).
  destruct (Hnil eq_refl) as [[Hfin Hmc] Hb].
  pose proof (lanes_length_Do _ _ _ _ _ _ HDo) as Hlen.
  pose proof (fetched_inv_Do _ _ _ _ _ _ HDo) as [Hgot _].
  apply pipe_inv_Do in HDo as [_ Hch [lost [Hp Hl Hd]] _ _].
  exists (mlog s), lost. split_and!; try done.
  - rewrite Hp, (finished_no_flight _ Hfin). simpl. solve_Permutation.
  - intros ->. apply (ci_closed _ _ Hch).
    destruct (lanes s) as [|ln lanes] eqn:E; [simpl in Hlen; lia|].
    apply Forall_cons in Hd as [Hd _]. apply Forall_cons in Hfin as [[? ?] _].
    destruct Hd; done.
Qed.

(** ** The errors of [Do] *)

Lemma err_inv_step w dst rs l s s' :
  pipe_inv w dst rs s → err_inv w dst rs s → step w l s = Some s' →
  err_inv w dst rs s'.
Proof.
  intros [Hd Hch [lost Hacc] Hpath Hmain] Hinv Hstep e He.
  unfold err_inv, main_inv in *.
  destruct l as [i| |i|i|i|i| |i| ];
    [unfold_step; repeat case_match; simplify_eq; proj_simpl; eauto..| |].
  - simpl in Hstep. unfold archive_recv in Hstep.
    destruct (main s) as [|zf zw defers| |] eqn:Hm; try done.
    destruct (lanes s !! i) as [[k [|r|]]|] eqn:Hi; try done.
    destruct Hmain as (Hzw & Hzf & Hdef & Hb & Hst).
    pose proof (Forall_lookup_1 _ _ _ _ Hst Hi) as Hln.
    pose proof (Forall_lookup_1 _ _ _ _ Hpath Hi) as Hne.
    unfold staged_items in Hln, Hne. proj_simpl.
    apply Forall_app in Hln as [Hk [[(body & Hobj & Hfile) Hrzf] _]%Forall_cons].
    apply Forall_app in Hne as [_ [Hne _]%Forall_cons].
    destruct (in_flight_resource w rs s lost i _ r Hacc Hi) as (r0 & Hr0 & Hdr).
    { unfold lane_items. proj_simpl. apply elem_of_app. right. by left. }
    injection Hdr as Hobj0 Hname0.
    unfold archive_iter, addToZip, failed_to_zip in Hstep.
    apply String.eqb_neq in Hne. rewrite Hne, Hfile in Hstep.
    unfold Do_error.
    destruct (zip_create_fails w (FileName r)) eqn:Hcr;
      [|destruct (zip_copy_fails w (FileName r)) eqn:Hcp];
      simplify_eq; proj_simpl; simplify_eq.
    + right; left. exists (Cause "zip: Create"), r0.
      rewrite Hname0. eauto.
    + do 2 right; left. exists (Cause "io.Copy"), r0.
      rewrite Hname0. eauto.
  - simpl in Hstep. unfold main_step in Hstep. unfold Do_error.
    destruct (main s) as [|zf zw defers|zf|err] eqn:Hm; simplify_eq.
    + unfold archive_open, failed_to_zip in He.
      destruct (CreateTemp w (disk s) "*.s3.zip") as [fs [e0|zf]] eqn:Hct;
        apply CreateTemp_spec in Hct; unfold with_main, with_disk in He;
        proj_simpl; simplify_eq.
      destruct Hct as [_ [?|?]]; [done|]. left. eauto.
    + destruct (merged_closed s); [|done].
      unfold archive_close, with_main, with_disk, failed_to_zip in Hstep.
      destruct (zip_close_fails w) eqn:Hcl; simplify_eq; proj_simpl;
        simplify_eq.
      do 3 right; left. eauto.
    + destruct Hmain as (Hfin & Hzf & Hb & Hcl).
      unfold Do_upload, upload in He. rewrite Hzf in He.
      destruct (s3_put_fails w (destObj s)) eqn:Hput; proj_simpl; simplify_eq.
      do 4 right. eauto.
Qed.

Lemma err_inv_Do w z dst rs sched s :
  Do w z dst rs sched = Some s → err_inv w dst rs s.
Proof.
  unfold Do. destruct (Do_start z dst rs) as [s0|] eqn:E; intros; simplify_eq/=.
  apply (run_invariant w (λ s, pipe_inv w dst rs s ∧ err_inv w dst rs s)).
  - intros l s1 s2 [? ?] ?. eauto using pipe_inv_step, err_inv_step.
  - split; [by eapply pipe_inv_start|].
    unfold Do_start in E. case_match; simplify_eq. by intros e.
Qed.

(** X9. An error returned by [Do] names the stage that has failed, and
    that stage did fail: it is the error of creating the file of the
    archive, of adding or of compressing an entry for one of the resources,
    or of closing the zip writer, wrapped as a failure to zip; or the error
    of the upload, wrapped as a failure to upload.  So [Do] never returns
    the error of a download, and never fails to open a file it has
    written. *)
Theorem Do_error_names_failed_stage w z dst rs sched s e :
  Do w z dst rs sched = Some s → main s = MReturn (Some e) →
  Do_error w dst rs e.
Proof. intros HDo. by apply (err_inv_Do _ _ _ _ _ _ HDo). Qed.

(** ** The transient files of a run *)

Lemma staged_paths_insert (lanes : list Lane) i ln ln' :
  lanes !! i = Some ln →
  staged_paths (<[i := ln']> lanes) ++ (fpath <$> staged_items ln)
  ≡ₚ staged_paths lanes ++ (fpath <$> staged_items ln').
Proof. apply (concat_fmap_insert (λ ln, fpath <$> staged_items ln)). Qed.

Lemma staged_paths_same (lanes : list Lane) i ln ln' :
  lanes !! i = Some ln → staged_items ln' = staged_items ln →
  staged_paths (<[i := ln']> lanes) = staged_paths lanes.
Proof.
  intros Hi Heq. unfold staged_paths. rewrite list_fmap_insert, Heq.
  by rewrite list_insert_id; [|rewrite list_lookup_fmap, Hi].
Qed.

Lemma files_inv_keep s s' gone :
  files_inv s → tracked s ≡ₚ gone ++ tracked s' →
  (∀ p, p ∉ gone → is_Some (disk s !! p) → is_Some (disk s' !! p)) →
  files_inv s'.
Proof.
  intros [Hnd Hall] Hp Hdisk. rewrite Hp in Hnd, Hall.
  apply NoDup_app in Hnd as (_ & Hdis & Hnd).
  apply Forall_app in Hall as [_ Hall]. split; [done|].
  rewrite Forall_forall in Hall. apply Forall_forall. intros p Hin.
  apply Hdisk; [|by apply Hall]. intros Hg. by apply (Hdis p).
Qed.

Lemma files_inv_add s s' f :
  files_inv s → tracked s' ≡ₚ f :: tracked s →
  disk s !! f = None → is_Some (disk s' !! f) → disk s ⊆ disk s' →
  files_inv s'.
Proof.
  intros [Hnd Hall] Hp Hfree Hf Hsub. unfold files_inv. rewrite Hp.
  rewrite Forall_forall in Hall. split.
  - apply NoDup_cons. split; [|done]. intros [b Hb]%Hall. congruence.
  - constructor; [done|]. apply Forall_forall. intros p [b Hb]%Hall.
    exists b. by eapply lookup_weaken.
Qed.

Lemma run_defers_keeps (fs : gmap string (list byte)) defers p :
  p ∉ defers → is_Some (fs !! p) → is_Some (run_defers fs defers !! p).
Proof. intros Hp. by rewrite run_defers_lookup. Qed.

Lemma files_inv_step w l s s' :
  files_inv s → step w l s = Some s' → files_inv s'.
Proof.
  intros Hinv Hstep.
  destruct l as [i| |i|i|i|i| |i| ].
  - unfold_step. repeat case_match; simplify_eq.
    apply (files_inv_keep s _ []); [done| |done]. unfold tracked. proj_simpl.
    erewrite staged_paths_same; done.
  - unfold_step. repeat case_match; simplify_eq.
    by apply (files_inv_keep s _ []).
  - unfold_step. repeat case_match; simplify_eq.
    apply (files_inv_keep s _ []); [done| |done]. unfold tracked. proj_simpl.
    erewrite staged_paths_same; done.
  - unfold_step. repeat case_match; simplify_eq; proj_simpl;
      match goal with
      | H : downloadOnDisk _ _ _ = _ |- _ =>
          apply downloadOnDisk_spec in H as [Hsub Hdl]
      end.
    + apply (files_inv_keep s _ []).
      * done.
      * unfold tracked. proj_simpl. erewrite staged_paths_same; done.
      * proj_simpl. intros p _ [b Hb]. exists b. by eapply lookup_weaken.
    + destruct Hdl as (f & body & Hfree & Hne & -> & Hf & _).
      apply (files_inv_add s _ f); proj_simpl; eauto.
      unfold tracked. proj_simpl.
      match goal with
      | H : lanes s !! i = Some ?ln |- context [<[i := ?ln']> _] =>
          pose proof (staged_paths_insert _ _ _ ln' H) as Hins
      end.
      unfold staged_items in Hins. proj_simpl.
      rewrite fmap_cons in Hins. simpl in Hins.
      match type of Hins with
      | _ ++ ?F ≡ₚ _ => apply (Permutation_app_inv_r F)
      end.
      rewrite <-(assoc_L (++)), (comm (++) (main_paths _)), (assoc_L (++)).
      rewrite Hins. solve_Permutation.
  - unfold_step. repeat case_match; simplify_eq.
    apply (files_inv_keep s _ []); [done| |done]. unfold tracked. proj_simpl.
    erewrite staged_paths_same; [done..|].
    unfold staged_items. by proj_simpl.
  - unfold_step. repeat case_match; simplify_eq.
    apply (files_inv_keep s _ []); [done| |done]. unfold tracked. proj_simpl.
    erewrite staged_paths_same; done.
  - unfold_step. repeat case_match; simplify_eq.
    by apply (files_inv_keep s _ []).
  - simpl in Hstep. unfold archive_recv in Hstep.
    destruct (main s) as [|zf zw defers| |] eqn:Hm; try done.
    destruct (lanes s !! i) as [[k [|r|]]|] eqn:Hi; try done.
    pose proof (staged_paths_insert _ _ _ (mkLane k FRecv) Hi) as Hins.
    unfold staged_items in Hins. proj_simpl.
    rewrite (right_id_L [] (++)), fmap_app in Hins. simpl in Hins.
    assert (staged_paths (lanes s)
            ≡ₚ fpath r :: staged_paths (<[i := mkLane k FRecv]> (lanes s)))
      as HSP.
    { apply (Permutation_app_inv_r
        (fpath <$> match k with WSend r0 => [r0] | _ => [] end)).
      rewrite <-Hins. solve_Permutation. }
    clear Hins. unfold archive_iter, failed_to_zip in Hstep.
    destruct (String.eqb (fpath r) ""); [|destruct (addToZip _ _ _ _)
      as [zw' [err|]]]; simplify_eq.
    + apply (files_inv_keep s _ [fpath r]); [done| |done].
      unfold tracked. proj_simpl. rewrite Hm, HSP. done.
    + apply (files_inv_keep s _ (fpath r :: zf :: defers)).
      * done.
      * unfold tracked. proj_simpl. rewrite Hm, HSP. simpl.
        solve_Permutation.
      * proj_simpl. intros p Hp. apply run_defers_keeps.
        rewrite !not_elem_of_cons in Hp. rewrite not_elem_of_cons. tauto.
    + apply (files_inv_keep s _ []); [done| |done].
      unfold tracked. proj_simpl. rewrite Hm, HSP. simpl. solve_Permutation.
  - simpl in Hstep. unfold main_step in Hstep.
    destruct (main s) as [|zf zw defers|zf|err] eqn:Hm; simplify_eq.
    + unfold archive_open, failed_to_zip.
      destruct (CreateTemp w (disk s) "*.s3.zip") as [fs [e0|zf]] eqn:Hct;
        apply CreateTemp_spec in Hct; unfold with_main, with_disk.
      * destruct Hct as [-> _].
        apply (files_inv_keep s _ []); [done| |done].
        unfold tracked. proj_simpl. by rewrite Hm.
      * destruct Hct as (Hfree & -> & _).
        apply (files_inv_add s _ zf); proj_simpl; try done.
        -- unfold tracked. proj_simpl. rewrite Hm. simpl. solve_Permutation.
        -- rewrite lookup_insert_eq. eauto.
        -- by apply insert_subseteq.
    + destruct (merged_closed s); [|done].
      unfold archive_close, with_main, with_disk, failed_to_zip in Hstep.
      destruct (zip_close_fails w) eqn:Hcl; simplify_eq.
      * apply (files_inv_keep s _ (zf :: defers)).
        -- done.
        -- unfold tracked. proj_simpl. rewrite Hm. simpl. solve_Permutation.
        -- proj_simpl. intros p Hp. apply run_defers_keeps.
           rewrite not_elem_of_cons in Hp. tauto.
      * apply (files_inv_keep s _ defers).
        -- done.
        -- unfold tracked. proj_simpl. rewrite Hm. simpl. solve_Permutation.
        -- proj_simpl. intros p Hp [b Hb]. apply run_defers_keeps; [done|].
           destruct (decide (p = zf)) as [->|].
           ++ rewrite lookup_insert_eq. eauto.
           ++ rewrite lookup_insert_ne by done. eauto.
    + unfold Do_upload. destruct (upload _ _ _ _ _) as [b err].
      apply (files_inv_keep s _ [zf]).
      * done.
      * unfold tracked. proj_simpl. rewrite Hm. simpl. solve_Permutation.
      * proj_simpl. intros p Hp%not_elem_of_cons. unfold Remove.
        rewrite lookup_delete_ne; [done|]. naive_solver.
Qed.

Lemma tracked_start z dst rs s0 :
  Do_start z dst rs = Some s0 → tracked s0 = [] ∧ disk s0 = ∅.
Proof.
  unfold Do_start. case_match; intros; simplify_eq. split; [|done].
  unfold tracked, staged_paths. cbn [lanes main main_paths].
  rewrite (right_id_L [] (++)).
  induction (Z.to_nat (concurrency z)) as [|n IH]; [done|]. simpl. exact IH.
Qed.

Lemma files_inv_Do w z dst rs sched s :
  Do w z dst rs sched = Some s → files_inv s.
Proof.
  unfold Do. destruct (Do_start z dst rs) as [s0|] eqn:E; intros; simplify_eq/=.
  apply (run_invariant w files_inv); eauto using files_inv_step.
  destruct (tracked_start _ _ _ _ E) as [Ht _].
  unfold files_inv. rewrite Ht. split; constructor.
Qed.

(** A step of [gen], of a worker or of [merge] removes no file and leaves
    the calling goroutine where it is. *)
Lemma worker_step_disk w l s s' :
  step w l s = Some s' → l ≠ Main → (∀ i, l ≠ ArchiveRecv i) →
  disk s ⊆ disk s' ∧ main s' = main s ∧ mlog s' = mlog s.
Proof.
  intros Hstep Hmain Hrecv.
  destruct l; try done; try (by edestruct Hrecv);
    unfold_step; repeat case_match; simplify_eq; proj_simpl;
    repeat match goal with
    | H : downloadOnDisk _ _ _ = _ |- _ =>
        apply downloadOnDisk_spec in H as [Hsub H]
    end; done.
Qed.

Lemma defer_inv_step w dst rs l s s' :
  pipe_inv w dst rs s → defer_inv w s → step w l s = Some s' →
  defer_inv w s'.
Proof.
  intros [_ _ _ Hpath Hmain] Hinv Hstep zf zw defers Hm'.
  unfold defer_inv, main_inv in *.
  destruct l as [i| |i|i|i|i| |i| ];
    [destruct (worker_step_disk w _ s s' Hstep) as (Hsub & Hms & Hml);
       [done..|]; rewrite Hms in Hm'; rewrite Hml;
       destruct (Hinv _ _ _ Hm') as [-> Hall]; split; [done|];
       eapply Forall_impl; [exact Hall|]; eauto using staged_weaken..| |].
  - simpl in Hstep. unfold archive_recv in Hstep.
    destruct (main s) as [|zf0 zw0 defers0| |] eqn:Hm; try done.
    destruct (lanes s !! i) as [[k [|r|]]|] eqn:Hi; try done.
    destruct (Hinv _ _ _ eq_refl) as [-> Hall].
    destruct Hmain as (Hzw & Hzf & Hdef & Hb & Hst).
    pose proof (Forall_lookup_1 _ _ _ _ Hst Hi) as Hln.
    pose proof (Forall_lookup_1 _ _ _ _ Hpath Hi) as Hne.
    unfold staged_items in Hln, Hne. proj_simpl.
    apply Forall_app in Hln as [_ [[Hr _] _]%Forall_cons].
    apply Forall_app in Hne as [_ [Hne _]%Forall_cons].
    unfold archive_iter, failed_to_zip in Hstep.
    apply String.eqb_neq in Hne. rewrite Hne in Hstep.
    destruct (addToZip _ _ _ _) as [zw' [err|]]; simplify_eq; proj_simpl;
      simplify_eq.
    split.
    + by rewrite fmap_app, reverse_app.
    + apply Forall_app. split; [done|]. by constructor.
  - simpl in Hstep. unfold main_step in Hstep.
    destruct (main s) as [|zf0 zw0 defers0|zf0|err] eqn:Hm; simplify_eq.
    + unfold archive_open, failed_to_zip in *.
      destruct (CreateTemp w (disk s) "*.s3.zip") as [fs [e0|zf1]];
        unfold with_main, with_disk in *; proj_simpl; simplify_eq.
      destruct Hmain as (-> & _). by split.
    + destruct (merged_closed s); [|done].
      unfold archive_close, with_main, with_disk, failed_to_zip in Hstep.
      destruct (zip_close_fails w); simplify_eq; proj_simpl; simplify_eq.
    + unfold Do_upload in *. destruct (upload _ _ _ _ _). by proj_simpl.
Qed.

Lemma defer_inv_Do w z dst rs sched s :
  Do w z dst rs sched = Some s → defer_inv w s.
Proof.
  unfold Do. destruct (Do_start z dst rs) as [s0|] eqn:E; intros; simplify_eq/=.
  apply (run_invariant w (λ s, pipe_inv w dst rs s ∧ defer_inv w s)).
  - intros l s1 s2 [? ?] ?. eauto using pipe_inv_step, defer_inv_step.
  - split; [by eapply pipe_inv_start|].
    unfold Do_start in E. case_match; simplify_eq. by intros zf zw defers.
Qed.

(** X10. [archive] removes no file before it returns: while it is in its
    loop the removals it has deferred are those of the resources it has
    received, last one first, and the transient file of each of them is
    still on the disk and holds the bytes of its source object; these
    files are pairwise distinct and none is the file of the archive. *)
Theorem archive_defers_removals w z dst rs sched s zf zw defers :
  Do w z dst rs sched = Some s → main s = MRange zf zw defers →
  defers = reverse (fpath <$> mlog s) ∧
  Forall (λ r, ∃ body, s3_object w (res_Object r) = Some body ∧
                       disk s !! fpath r = Some body) (mlog s) ∧
  NoDup (zf :: (fpath <$> mlog s)).
Proof.
  intros HDo Hm. destruct (defer_inv_Do _ _ _ _ _ _ HDo _ _ _ Hm) as [-> Hall].
  split_and!; try done.
  destruct (files_inv_Do _ _ _ _ _ _ HDo) as [Hnd _].
  unfold tracked in Hnd. rewrite Hm in Hnd. simpl in Hnd.
  apply NoDup_app in Hnd as (_ & _ & Hnd).
  apply NoDup_cons in Hnd as [Hzf Hnd]. apply NoDup_cons.
  rewrite elem_of_reverse in Hzf. by rewrite reverse_Permutation in Hnd.
Qed.

Lemma downloadOnDisk_None w fs res fs' res' :
  downloadOnDisk w fs res = (fs', res', None) →
  ∃ f body, fs !! f = None ∧ fs' = <[f := body]> fs ∧ res' = set_fpath res f.
Proof.
  unfold downloadOnDisk, download. intros H.
  destruct (CreateTemp w fs _) as [fs1 [e|f]] eqn:Hct;
    apply CreateTemp_spec in Hct; simpl in Hct; [done|].
  destruct Hct as (Hfree & -> & _).
  destruct (s3_object w (res_Object res)) as [body|]; simplify_eq.
  exists f, body. by rewrite insert_insert_eq.
Qed.

Lemma staged_paths_elem (lanes : list Lane) i ln r :
  lanes !! i = Some ln → r ∈ staged_items ln → fpath r ∈ staged_paths lanes.
Proof.
  intros Hi Hr. unfold staged_paths.
  revert i Hi. induction lanes as [|a lanes IH]; intros [|i] Hi;
    simplify_eq/=; apply elem_of_app.
  - left. apply list_elem_of_fmap. eauto.
  - right. eauto.
Qed.

Lemma dom_run_defers (fs : gmap string (list byte)) defers :
  dom (run_defers fs defers) = dom fs ∖ list_to_set defers.
Proof.
  revert fs. induction defers as [|d defers IH]; intros fs; simpl.
  - set_solver.
  - unfold run_defers in *. simpl. rewrite IH. unfold Remove.
    rewrite dom_delete_L. set_solver.
Qed.

Lemma clean_inv_step w dst rs l s s' :
  downloads_ok w rs = true → entries_ok w rs = true →
  zip_close_fails w = false →
  pipe_inv w dst rs s → files_inv s → clean_inv s →
  step w l s = Some s' → clean_inv s'.
Proof.
  intros Hdl Hen Hcl [_ _ [lost Hacc] Hpath Hmain] [Hnd _] Hinv Hstep.
  unfold clean_inv, tracked in *.
  destruct l as [i| |i|i|i|i| |i| ].
  - unfold_step. repeat case_match; simplify_eq. proj_simpl.
    erewrite staged_paths_same; done.
  - unfold_step. by repeat case_match; simplify_eq.
  - unfold_step. repeat case_match; simplify_eq. proj_simpl.
    erewrite staged_paths_same; done.
  - unfold_step. repeat case_match; simplify_eq; proj_simpl.
    + exfalso.
      match goal with
      | H : downloadOnDisk _ _ _ = _ |- _ =>
          apply downloadOnDisk_spec in H as [_ Hbad]
      end.
      destruct (in_flight_resource w rs s lost i _ res Hacc H)
        as (r0 & Hr0 & Hd).
      { unfold lane_items. proj_simpl. by left. }
      unfold downloads_ok in Hdl. rewrite forallb_forall in Hdl.
      apply list_elem_of_In, Hdl in Hr0.
      rewrite (download_ok_desc w r0 res) in Hr0 by done. congruence.
    + match goal with
      | H : downloadOnDisk _ _ _ = _ |- _ =>
          apply downloadOnDisk_None in H as (f & body & Hfree & -> & ->)
      end.
      match goal with
      | H : lanes s !! i = Some ?ln |- context [<[i := ?ln']> _] =>
          pose proof (staged_paths_insert _ _ _ ln' H) as Hins
      end.
      unfold staged_items in Hins. proj_simpl.
      rewrite fmap_cons in Hins. simpl in Hins.
      match type of Hins with
      | ?A ++ ?F ≡ₚ _ =>
          assert (A ≡ₚ f :: staged_paths (lanes s)) as ->
            by (apply (Permutation_app_inv_r F); rewrite Hins;
                solve_Permutation)
      end.
      rewrite dom_insert_L, Hinv. set_solver.
  - unfold_step. repeat case_match; simplify_eq. proj_simpl.
    erewrite staged_paths_same; [done..|]. unfold staged_items. by proj_simpl.
  - unfold_step. repeat case_match; simplify_eq. proj_simpl.
    erewrite staged_paths_same; done.
  - unfold_step. by repeat case_match; simplify_eq.
  - simpl in Hstep. unfold archive_recv in Hstep. unfold main_inv in Hmain.
    destruct (main s) as [|zf zw defers| |] eqn:Hm; try done.
    destruct (lanes s !! i) as [[k [|r|]]|] eqn:Hi; try done.
    pose proof (staged_paths_insert _ _ _ (mkLane k FRecv) Hi) as Hins.
    unfold staged_items in Hins. proj_simpl.
    rewrite (right_id_L [] (++)), fmap_app in Hins. simpl in Hins.
    assert (staged_paths (lanes s)
            ≡ₚ fpath r :: staged_paths (<[i := mkLane k FRecv]> (lanes s)))
      as HSP.
    { apply (Permutation_app_inv_r
        (fpath <$> match k with WSend r0 => [r0] | _ => [] end)).
      rewrite <-Hins. solve_Permutation. }
    clear Hins.
    destruct Hmain as (Hzw & Hzf & Hdef & Hb & Hst).
    pose proof (Forall_lookup_1 _ _ _ _ Hst Hi) as Hln.
    pose proof (Forall_lookup_1 _ _ _ _ Hpath Hi) as Hne.
    unfold staged_items in Hln, Hne. proj_simpl.
    apply Forall_app in Hln as [_ [[(body & Hobj & Hfile) _] _]%Forall_cons].
    apply Forall_app in Hne as [_ [Hne _]%Forall_cons].
    destruct (in_flight_resource w rs s lost i _ r Hacc Hi) as (r0 & Hr0 & Hd).
    { unfold lane_items. proj_simpl. apply elem_of_app. right. by left. }
    injection Hd as _ Hname0.
    apply andb_true_iff in Hen as [_ Hen]. rewrite forallb_forall in Hen.
    apply list_elem_of_In, Hen in Hr0. unfold zip_ok in Hr0.
    rewrite Hname0 in Hr0.
    apply andb_true_iff in Hr0 as [Hcr%negb_true_iff Hcp%negb_true_iff].
    unfold archive_iter, addToZip in Hstep.
    apply String.eqb_neq in Hne. rewrite Hne, Hcr, Hfile, Hcp in Hstep.
    simplify_eq. proj_simpl. rewrite Hinv, HSP. simpl.
    rewrite !list_to_set_app_L, !list_to_set_cons. set_solver.
  - simpl in Hstep. unfold main_step in Hstep. unfold main_inv in Hmain.
    destruct (main s) as [|zf zw defers|zf|err] eqn:Hm; simplify_eq.
    + unfold archive_open.
      destruct (CreateTemp w (disk s) "*.s3.zip") as [fs [e0|zf]] eqn:Hct;
        apply CreateTemp_spec in Hct; unfold with_main, with_disk; proj_simpl.
      * destruct Hct as [-> _]. by rewrite Hinv.
      * destruct Hct as (Hfree & -> & _). rewrite dom_insert_L, Hinv.
        simpl. rewrite !list_to_set_app_L. set_solver.
    + destruct (merged_closed s); [|done].
      unfold archive_close, with_main, with_disk in Hstep.
      rewrite Hcl in Hstep. simplify_eq. proj_simpl.
      rewrite dom_run_defers, dom_insert_L, Hinv. simpl in *.
      apply NoDup_app in Hnd as (_ & Hdis & [Hzf _]%NoDup_cons).
      rewrite !list_to_set_app_L, !list_to_set_cons.
      apply set_eq. intros p. specialize (Hdis p).
      rewrite !elem_of_difference, !elem_of_union, !elem_of_list_to_set,
        !elem_of_singleton, ?elem_of_nil, elem_of_cons in *.
      split; [tauto|]. intros [Hp|[->|[]]].
      * split; [tauto|]. intros Hd. apply Hdis; auto.
      * tauto.
    + unfold Do_upload. destruct (upload _ _ _ _ _) as [b err]. proj_simpl.
      unfold Remove. rewrite dom_delete_L, Hinv. simpl in *.
      apply NoDup_app in Hnd as (_ & Hdis & _).
      rewrite !list_to_set_app_L, !list_to_set_cons.
      apply set_eq. intros p. specialize (Hdis p).
      rewrite !elem_of_difference, !elem_of_union, !elem_of_list_to_set,
        !elem_of_singleton, ?elem_of_nil, elem_of_cons in *.
      split; [tauto|]. intros [Hp|[]]. split; [tauto|].
      intros ->. apply Hdis; auto.
Qed.

Lemma staged_paths_finished (lanes : list Lane) :
  Forall lane_finished lanes → staged_paths lanes = [].
Proof.
  induction 1 as [|[k f] lanes [Hk Hf] _ IH]; [done|].
  simpl in *. subst. unfold staged_paths in *. simpl. done.
Qed.

(** X11. In every state of every run the transient files that are still
    to be read or removed (those of the resources a worker or a forwarder
    holds, those whose removal [archive] has deferred, and the file of the
    archive) are on the disk and are pairwise distinct: no file is removed
    while a later step needs it, and no two resources share a file,
    whatever their archive paths. *)
Theorem Do_keeps_files_in_use w z dst rs sched s :
  Do w z dst rs sched = Some s →
  NoDup (tracked s) ∧ Forall (λ p, is_Some (disk s !! p)) (tracked s).
Proof. apply files_inv_Do. Qed.

(** X12. When every download succeeds, every entry can be written and the
    zip writer can be closed, no transient file is left when [Do] has
    returned, whether it returns nil or the error of the upload: the disk
    is as empty as it was at the start. *)
Theorem Do_removes_transient_files w z dst rs sched s err :
  downloads_ok w rs = true → entries_ok w rs = true →
  zip_close_fails w = false →
  Do w z dst rs sched = Some s → main s = MReturn err →
  disk s = ∅.
Proof.
  intros Hdl Hen Hcl HDo Hm.
  destruct (Do_returned _ _ _ _ _ _ _ HDo Hm) as (Hfin & _).
  destruct (Hfin Hen) as [Hlanes _].
  assert (clean_inv s) as Hclean.
  { unfold Do in HDo.
    destruct (Do_start z dst rs) as [s0|] eqn:E; simplify_eq/=.
    apply (run_invariant w
      (λ s, pipe_inv w dst rs s ∧ files_inv s ∧ clean_inv s)).
    - intros l s1 s2 (? & ? & ?) ?.
      eauto 10 using pipe_inv_step, files_inv_step, clean_inv_step.
    - split; [by eapply pipe_inv_start|].
      destruct (tracked_start _ _ _ _ E) as [Ht Hd].
      unfold files_inv, clean_inv. rewrite Ht, Hd.
      split_and!; try constructor; set_solver. }
  unfold clean_inv, tracked in Hclean.
  rewrite Hm, (staged_paths_finished _ Hlanes) in Hclean.
  by apply dom_empty_inv_L.
Qed.

(** ** One worker *)

Lemma order_inv_step w l s s' :
  order_inv w s → step w l s = Some s' → order_inv w s'.
Proof.
  intros (ln & lost & Hl & Hq & Hlost & Hdone) Hstep. unfold order_inv.
  destruct l as [i| |i|i|i|i| |i| ]; unfold_step; unfold archive_close in *;
    rewrite ?Hl in Hstep; try destruct i as [|i]; simpl in Hstep;
    repeat case_match; simplify_eq; proj_simpl; rewrite ?Hl;
    unfold pending in *; proj_simpl;
    try (by eexists _, lost; split_and!; eauto);
    try (assert (lost = []) as -> by
           (by destruct Hlost as [->|(? & _ & _ & ?)]); clear Hlost);
    repeat match goal with
    | H : downloadOnDisk _ _ _ = _ |- _ =>
        apply downloadOnDisk_spec in H as [_ H]
    end.
  - eexists _, []. split_and!; [done| |by left|done]. proj_simpl.
    rewrite !fmap_app, Hq, !fmap_app. simpl.
    by rewrite !(right_id_L [] (++)), <-!(assoc_L (++)).
  - eexists _, []. split_and!; [done| |by left|done]. by proj_simpl.
  - match goal with
    | H : lanes s = [mkLane (WDownload ?r) _] |- _ => eexists _, [r]
    end.
    split_and!; [done| |right; eexists; split_and!; eauto|done]. proj_simpl.
    rewrite Hq, !fmap_app. simpl.
    by rewrite !(right_id_L [] (++)), <-!(assoc_L (++)).
  - match goal with
    | H : ∃ f body, _ |- _ => destruct H as (f & body & _ & _ & -> & _)
    end.
    eexists _, []. split_and!; [done| |by left|done]. proj_simpl.
    by rewrite Hq, !fmap_app.
  - eexists _, []. split_and!; [done| |by left|done]. by proj_simpl.
  - eexists _, lost. split_and!; [done| |done..]. proj_simpl.
    rewrite Hq, !fmap_app. simpl. by rewrite <-!(assoc_L (++)).
Qed.

Lemma order_inv_Do w z dst rs sched s :
  concurrency z = 1%Z → Do w z dst rs sched = Some s → order_inv w s.
Proof.
  intros Hc. unfold Do.
  destruct (Do_start z dst rs) as [s0|] eqn:E; intros; simplify_eq/=.
  apply run_invariant; eauto using order_inv_step.
  unfold Do_start in E. rewrite Hc in E. simpl in E. simplify_eq.
  exists (mkLane WRecv FRecv), []. split_and!; try done. by left.
Qed.

Lemma entry_of_descs w (l1 l2 : list Resource) :
  desc <$> l1 = desc <$> l2 → entry_of w <$> l1 = entry_of w <$> l2.
Proof.
  intros H.
  assert (∀ l : list Resource, entry_of w <$> l =
    (λ d : Object * string, (d.2, default [] (s3_object w d.1))) <$>
      (desc <$> l)) as Heq.
  { intros l. rewrite <-list_fmap_compose. done. }
  by rewrite !Heq, H.
Qed.

Lemma download_ok_descs w b (l1 l2 : list Resource) :
  desc <$> l1 = desc <$> l2 →
  Forall (λ r, download_ok w r = b) l1 → Forall (λ r, download_ok w r = b) l2.
Proof.
  revert l2. induction l1 as [|r1 l1 IH]; intros [|r2 l2] H Hall;
    simplify_eq/=; [done|].
  apply Forall_cons in Hall as [? ?]. constructor; [|by apply IH].
  rewrite (download_ok_desc w r2 r1); [done|]. unfold desc. congruence.
Qed.

(** X13. With one worker (the default) the archive follows the order of
    the resources: when [Do] has returned nil it has uploaded the entries
    of the first [k] resources, in their order, each downloaded from an
    object that exists; and [k] falls short of the whole list only when the
    download of the next resource has failed. *)
Theorem Do_one_worker_keeps_order w z dst rs sched s :
  concurrency z = 1%Z →
  Do w z dst rs sched = Some s → main s = MReturn None →
  ∃ k, bucket s = [(dst, zip_encode w (entry_of w <$> take k rs))] ∧
       Forall (λ r, download_ok w r = true) (take k rs) ∧
       match rs !! k with
       | Some r => download_ok w r = false
       | None => take k rs = rs
       end.
Proof.
  intros Hc HDo Hm.
  destruct (order_inv_Do _ _ _ _ _ _ Hc HDo)
    as (ln & lost & Hl & Hq & Hlost & Hdone).
  destruct (Do_returned _ _ _ _ _ _ _ HDo Hm) as (_ & Hnil & _).
  destruct (Hnil eq_refl) as [[Hfin _] Hb].
  pose proof (fetched_inv_Do _ _ _ _ _ _ HDo) as [Hgot _].
  pose proof (chan_inv_Do _ _ _ _ _ _ HDo) as [Hrs Hclosed _ _ _].
  rewrite Hl in Hfin. apply Forall_cons in Hfin as [[Hwk Hfw] _].
  unfold pending in Hq. rewrite Hwk, Hfw in Hq. simpl in Hq.
  rewrite (right_id_L [] (++)) in Hq.
  assert (desc <$> rs
          = (desc <$> mlog s) ++ (desc <$> lost) ++ (desc <$> queue s)) as Hd.
  { by rewrite <-Hrs, fmap_app, Hq, (assoc_L (++)). }
  assert (desc <$> take (length (mlog s)) rs = desc <$> mlog s) as Htake.
  { rewrite fmap_take, Hd. apply take_app_length'. by rewrite length_fmap. }
  exists (length (mlog s)). split_and!.
  - by rewrite (entry_of_descs w _ _ Htake).
  - by apply (download_ok_descs w true (mlog s)).
  - destruct Hlost as [->|(r & -> & Hr & _)].
    + rewrite (Hclosed (Hdone Hwk eq_refl)) in Hd. simpl in Hd.
      rewrite (right_id_L [] (++)) in Hd.
      assert (length rs = length (mlog s)) as Hlen.
      { by rewrite <-(length_fmap desc rs), Hd, length_fmap. }
      rewrite lookup_ge_None_2 by lia. apply take_ge. lia.
    + assert ((desc <$> rs) !! length (mlog s) = Some (desc r)) as Hk.
      { rewrite Hd, lookup_app_r; rewrite length_fmap; [|done].
        by rewrite Nat.sub_diag. }
      rewrite list_lookup_fmap in Hk.
      destruct (rs !! length (mlog s)) as [r0|]; [|done].
      simpl in Hk. rewrite (download_ok_desc w r0 r); [done|congruence].
Qed.

(** ** Failures after the downloads *)

(** X15. With at least one worker and every download succeeding, a
    failure of the archive stage or of the upload is never swallowed: when
    [Do] has returned, it has returned nil exactly when the file of the
    archive could be created, every entry written, the zip writer closed
    and the archive uploaded. *)
Theorem Do_reports_archive_and_upload_failures w z dst rs sched s err :
  (1 ≤ concurrency z)%Z → downloads_ok w rs = true →
  Do w z dst rs sched = Some s → main s = MReturn err →
  err = None ↔ entries_ok w rs = true ∧ upload_ok w dst = true.
Proof.
  intros Hc Hdl HDo Hm. split.
  - intros ->. by eapply Do_nil_no_failure.
  - intros [Hen Hup].
    destruct (Do_returned _ _ _ _ _ _ _ HDo Hm) as (_ & _ & _ & Hnil). auto.
Qed.

(** ** Downloads in progress *)

Lemma flight_descs_length (lanes : list Lane) :
  length (flight_descs lanes)
  = length (concat ((λ ln, wk_items (wk ln)) <$> lanes))
    + length (concat ((λ ln, fw_items (fw ln)) <$> lanes)).
Proof.
  unfold flight_descs. induction lanes as [|ln lanes IH]; [done|].
  rewrite !fmap_cons. cbn [concat]. rewrite !length_app, length_fmap, IH.
  unfold lane_items. rewrite length_app. lia.
Qed.

Lemma busy_length (lanes : list Lane) :
  (length (concat ((λ ln, wk_items (wk ln)) <$> lanes)) ≤ length lanes)%nat.
Proof.
  induction lanes as [|[k f] lanes IH]; [done|].
  rewrite fmap_cons. cbn [concat]. rewrite length_app.
  destruct k; simpl in *; lia.
Qed.

(** X14. [concurrency] bounds the downloads in progress: in every state
    of every run the resources taken from the task queue are those the
    workers have handed on, those whose download has failed, and those the
    workers hold, and the workers hold at most [concurrency] of them. *)
Theorem Do_bounds_downloads w z dst rs sched s :
  Do w z dst rs sched = Some s →
  ∃ lost,
    Forall (λ r, download_ok w r = false) lost ∧
    length (qlog s) = length (wlog s) + length (busy s) + length lost ∧
    (length (busy s) ≤ Z.to_nat (concurrency z))%nat.
Proof.
  intros HDo. pose proof (lanes_length_Do _ _ _ _ _ _ HDo) as Hlen.
  apply pipe_inv_Do in HDo as [_ [Hq _ Hm _ _] [lost [Hp Hl _]] _ _].
  exists lost. split; [done|]. unfold busy. split.
  - apply Permutation_length in Hp, Hm.
    rewrite !length_app, !length_fmap, flight_descs_length in Hp.
    rewrite length_app in Hm. unfold held in Hm.
    rewrite <-Hq, length_app in Hp. lia.
  - rewrite <-Hlen. apply busy_length.
Qed.

(** ** The further properties at work *)

Lemma downloadOnDisk_stages_object_witness :
  ∃ f body,
    downloadOnDisk demo_world ∅ resA
    = (<[f := body]> ∅, set_fpath resA f, None) ∧
    (∅ : gmap string (list byte)) !! f = None ∧ f ≠ "" ∧
    s3_object demo_world (res_Object resA) = Some body.
Proof.
  apply (downloadOnDisk_stages_object demo_world ∅ resA). reflexivity.
Defined.

Lemma downloadOnDisk_reports_failure_witness :
  ∃ fs' err,
    downloadOnDisk demo_world ∅ resMissing = (fs', resMissing, Some err) ∧
    ((fs' = ∅ ∧ (∀ msg cause, err ≠ Errorf msg cause) ∧
      (has_separator (FileName resMissing) = true ∨
       tmp_exhausted demo_world ("*." +:+ FileName resMissing) = true)) ∨
     (∃ f cause, (∅ : gmap string (list byte)) !! f = None ∧
                 fs' = <[f := []]> ∅ ∧
                 err = Errorf "failed to download" cause ∧
                 s3_object demo_world (res_Object resMissing) = None)).
Proof.
  apply (downloadOnDisk_reports_failure demo_world ∅ resMissing). reflexivity.
Defined.

Lemma Do_uploads_at_most_once_witness :
  ∃ s, Do demo_world (New [WithConcurrency 2]) dest [resA; resB]
         sched_two_workers = Some s ∧
       (bucket s = [] ∨
        (main s = MReturn None ∧ ∃ body, bucket s = [(dest, body)])).
Proof.
  eexists. split; [reflexivity|].
  apply (Do_uploads_at_most_once demo_world (New [WithConcurrency 2]) dest
           [resA; resB] sched_two_workers).
  reflexivity.
Defined.

Lemma Do_nothing_to_archive_witness :
  ∃ s, Do demo_world (New []) dest [] sched_no_resources = Some s ∧
       main s = MReturn None ∧ bucket s = [(dest, plain_zip [])].
Proof.
  eexists. split; [reflexivity|]. split; [vm_compute; reflexivity|].
  refine (proj2 (Do_nothing_to_archive demo_world (New []) dest
                   sched_no_resources _ None _ _ _ _));
    [reflexivity..|vm_compute; reflexivity].
Defined.

Lemma Do_can_always_return_witness :
  ∃ s, Do demo_world (New []) dest [resA] [GenSend 0] = Some s ∧
       ∃ more s', Do demo_world (New []) dest [resA] ([GenSend 0] ++ more)
                  = Some s' ∧ is_Some (returned s').
Proof.
  eexists. split; [reflexivity|].
  refine (proj2 (Do_can_always_return demo_world (New []) dest [resA]
                   [GenSend 0] _ _)).
  reflexivity.
Defined.

Lemma Do_steps_bounded_witness :
  ∃ s0, Do_start (New [WithConcurrency 2]) dest [resA; resB] = Some s0 ∧
        (effective_steps demo_world sched_two_workers s0 ≤ 17)%nat.
Proof.
  eexists. split; [reflexivity|].
  exact (Do_steps_bounded demo_world (New [WithConcurrency 2]) dest
           [resA; resB] sched_two_workers _ eq_refl).
Defined.

Lemma Do_archives_what_was_downloaded_witness :
  ∃ s, Do demo_world (New [WithConcurrency 2]) dest
         [resA; resMissing; resB] sched_one_download_fails = Some s ∧
       ∃ got lost,
         bucket s = [(dest, plain_zip (entry_of demo_world <$> got))] ∧
         desc <$> [resA; resMissing; resB]
         ≡ₚ (desc <$> got) ++ (desc <$> lost) ++ (desc <$> queue s) ∧
         Forall (λ r, download_ok demo_world r = true) got ∧
         Forall (λ r, download_ok demo_world r = false) lost ∧
         (lost = [] → queue s = []).
Proof.
  eexists. split; [reflexivity|].
  apply (Do_archives_what_was_downloaded demo_world (New [WithConcurrency 2])
           dest [resA; resMissing; resB] sched_one_download_fails);
    [done|reflexivity|vm_compute; reflexivity].
Defined.

Lemma Do_error_names_failed_stage_witness :
  ∃ s e, Do copy_fails_world (New []) dest [resA; resB] sched_one_worker
         = Some s ∧
         main s = MReturn (Some e) ∧
         Do_error copy_fails_world dest [resA; resB] e.
Proof.
  eexists _, _. split; [reflexivity|]. split; [vm_compute; reflexivity|].
  apply (Do_error_names_failed_stage copy_fails_world (New []) dest
           [resA; resB] sched_one_worker _ _ eq_refl).
  vm_compute; reflexivity.
Defined.

Lemma archive_defers_removals_witness :
  ∃ s zf zw defers,
    Do demo_world (New [WithConcurrency 2]) dest [resA; resB] sched_in_loop
    = Some s ∧
    main s = MRange zf zw defers ∧
    defers = reverse (fpath <$> mlog s) ∧
    Forall (λ r, ∃ body, s3_object demo_world (res_Object r) = Some body ∧
                         disk s !! fpath r = Some body) (mlog s) ∧
    NoDup (zf :: (fpath <$> mlog s)).
Proof.
  eexists _, _, _, _. split; [reflexivity|]. split; [vm_compute; reflexivity|].
  eapply (archive_defers_removals demo_world (New [WithConcurrency 2]) dest
            [resA; resB] sched_in_loop);
    [reflexivity|vm_compute; reflexivity].
Defined.

Lemma Do_keeps_files_in_use_witness :
  ∃ s, Do demo_world (New [WithConcurrency 2]) dest [resA; resB] sched_in_loop
       = Some s ∧
       NoDup (tracked s) ∧ Forall (λ p, is_Some (disk s !! p)) (tracked s).
Proof.
  eexists. split; [reflexivity|].
  apply (Do_keeps_files_in_use demo_world (New [WithConcurrency 2]) dest
           [resA; resB] sched_in_loop).
  reflexivity.
Defined.

Lemma Do_removes_transient_files_witness :
  ∃ s, Do demo_world (New [WithConcurrency 2]) dest [resA; resB]
         sched_two_workers = Some s ∧
       disk s = ∅.
Proof.
  eexists. split; [reflexivity|].
  apply (Do_removes_transient_files demo_world (New [WithConcurrency 2]) dest
           [resA; resB] sched_two_workers _ None);
    [reflexivity..|vm_compute; reflexivity].
Defined.

Lemma Do_one_worker_keeps_order_witness :
  ∃ s, Do demo_world (New []) dest [resA; resB] sched_one_worker = Some s ∧
       ∃ k, bucket s
            = [(dest, plain_zip (entry_of demo_world <$> take k [resA; resB]))] ∧
            Forall (λ r, download_ok demo_world r = true)
              (take k [resA; resB]) ∧
            match [resA; resB] !! k with
            | Some r => download_ok demo_world r = false
            | None => take k [resA; resB] = [resA; resB]
            end.
Proof.
  eexists. split; [reflexivity|].
  apply (Do_one_worker_keeps_order demo_world (New []) dest [resA; resB]
           sched_one_worker);
    [reflexivity|reflexivity|vm_compute; reflexivity].
Defined.

Lemma Do_bounds_downloads_witness :
  ∃ s, Do demo_world (New [WithConcurrency 2]) dest [resA; resB] sched_in_loop
       = Some s ∧
       ∃ lost,
         Forall (λ r, download_ok demo_world r = false) lost ∧
         length (qlog s) = length (wlog s) + length (busy s) + length lost ∧
         (length (busy s) ≤ 2)%nat.
Proof.
  eexists. split; [reflexivity|].
  apply (Do_bounds_downloads demo_world (New [WithConcurrency 2]) dest
           [resA; resB] sched_in_loop).
  reflexivity.
Defined.

Lemma Do_reports_archive_and_upload_failures_witness :
  ∃ s e, Do copy_fails_world (New []) dest [resA; resB] sched_one_worker
         = Some s ∧
         main s = MReturn (Some e) ∧
         (Some e = None ↔ entries_ok copy_fails_world [resA; resB] = true ∧
                          upload_ok copy_fails_world dest = true).
Proof.
  eexists _, _. split; [reflexivity|]. split; [vm_compute; reflexivity|].
  eapply (Do_reports_archive_and_upload_failures copy_fails_world (New [])
            dest [resA; resB] sched_one_worker);
    [done|reflexivity|reflexivity|vm_compute; reflexivity].
Defined.
